(** * A shallow embedding of collatz.c (dag-erling/collatz)

    The program records the numbers reachable from 1 under the reverse
    Collatz relation in a binary tree of ranges ([node]), exploring either
    recursively ([collatz_r]) or through a circular work queue
    ([collatz_i]).

    Modelling choices:
    - [uintmax_t] values are [Z] and every subtraction, addition or
      multiplication on them is reduced modulo 2^64 ([u64]); [unsigned int]
      counters are reduced modulo 2^32 ([u32]);
    - a node is a record whose [left] and [right] children are [option]s,
      as the C pointers may each be NULL;
    - the tree is updated in place by the C code; here [insert] returns the
      updated node.  The only pointer into the tree besides the parent
      links is the global [proven]; it is modelled as the path from the
      root to the node it points to ([false] = left, [true] = right);
    - [assert] failures abort the run: the tree operations live in a state
      and failure monad [M] over the global counters;
    - diagnostics (debug output, [progress], timing, [maxrecurse]) are left
      out: they do not influence the tree or the queue. *)

From Stdlib Require Import ZArith List Lia Bool.
Import ListNotations.
Open Scope Z_scope.

(** ** Machine arithmetic *)

Definition UINTMAX_MOD : Z := 2 ^ 64.
Definition UINT_MOD : Z := 2 ^ 32.

(** Reduction of a result to [uintmax_t]. *)
Definition u64 (x : Z) : Z := x mod UINTMAX_MOD.

(** Reduction of a result to [unsigned int]. *)
Definition u32 (x : Z) : Z := x mod UINT_MOD.

(** ** The tree of reachable numbers *)

#[local] Set Warnings "-register-all".

(** [struct node]: the span [first, last], the number of recorded values
    in it, the depth, and the two (nullable) children. *)
Inductive node : Type := mknode {
  first : Z;
  last : Z;
  covered : Z;
  depth : Z;
  left : option node;
  right : option node
}.

(** [LEAF_NODE(n)] *)
Definition LEAF_NODE (n : node) : bool :=
  match left n, right n with
  | None, None => true
  | _, _ => false
  end.

(** Position of a node in the tree: the turns from the root. *)
Definition path := list bool.

(** The globals touched by the tree operations: [proven] (NULL or a node,
    given by its path), [nodes], [maxnodes] and [maxdepth]. *)
Record tstate := mktstate {
  proven : option path;
  nodes : Z;
  maxnodes : Z;
  maxdepth : Z
}.

(** State and failure monad: [None] is an [assert] that fired. *)
Definition M (A : Type) : Type := tstate -> option (A * tstate).

Definition ret {A} (a : A) : M A := fun s => Some (a, s).
Definition bind {A B} (m : M A) (k : A -> M B) : M B :=
  fun s => match m s with
           | Some (a, s') => k a s'
           | None => None
           end.
Definition assert_fail {A} : M A := fun _ => None.

Notation "x <- m ;; k" := (bind m (fun x => k))
  (at level 61, m at next level, right associativity).
Notation "' p <- m ;; k" := (bind m (fun x => match x with p => k end))
  (at level 61, p pattern, m at next level, right associativity).
Notation "m ;;; k" := (bind m (fun _ => k))
  (at level 61, right associativity).

(** [proven = n] for the node at path [p]. *)
Definition set_proven (p : path) : M unit :=
  fun s => Some (tt, mktstate (Some p) (nodes s) (maxnodes s) (maxdepth s)).

(** [create]: a new leaf at path [p].  Note that [nodes] is incremented
    twice, once by [nodes++] and once by [++nodes]. *)
Definition create (p : path) (d f l : Z) : M node :=
  fun s =>
    let n := mknode f l (u64 (u64 (l - f) + 1)) d None None in
    let maxdepth' := if d >? maxdepth s then d else maxdepth s in
    let nodes1 := u32 (nodes s + 1) in            (* nodes++ *)
    let nodes2 := u32 (nodes1 + 1) in             (* ++nodes *)
    let maxnodes' := if nodes2 >? maxnodes s then nodes2 else maxnodes s in
    let proven' := if f =? 1 then Some p else proven s in
    Some (n, mktstate proven' nodes2 maxnodes' maxdepth').

(** [destroy]: free a subtree, decrementing [nodes] once per node. *)
Fixpoint destroy (n : node) : M unit :=
  match n with
  | mknode _ _ _ _ l r =>
      (match l with Some c => destroy c | None => ret tt end) ;;;
      (match r with Some c => destroy c | None => ret tt end) ;;;
      (fun s => Some (tt, mktstate (proven s) (u32 (nodes s - 1))
                                   (maxnodes s) (maxdepth s)))
  end.

(** [insert_into_leaf] *)
Definition insert_into_leaf (p : path) (n : node) (f l : Z) : M (bool * node) :=
  match n with
  | mknode nf nl nc nd None None =>
      if (nf <=? f) && (l <=? nl) then
        (* sub-range *)
        ret (true, n)
      else if (f <=? u64 (nl + 1)) && (u64 (nf - 1) <=? l) then
        (* overlaps with or adjacent to us *)
        let nf' := if f <? nf then f else nf in
        let nl' := if nl <? l then l else nl in
        (if nf' =? 1 then set_proven p else ret tt) ;;;
        ret (false, mknode nf' nl' (u64 (u64 (nl' - nf') + 1)) nd None None)
      else if l <? u64 (nf - 1) then
        (* sits to the left *)
        lc <- create (p ++ [false]) (u32 (nd + 1)) f l ;;
        rc <- create (p ++ [true]) (u32 (nd + 1)) nf nl ;;
        ret (false, mknode (first lc) (last rc) (u64 (covered lc + covered rc))
                           nd (Some lc) (Some rc))
      else if u64 (nl + 1) <? f then
        (* sits to the right *)
        lc <- create (p ++ [false]) (u32 (nd + 1)) nf nl ;;
        rc <- create (p ++ [true]) (u32 (nd + 1)) f l ;;
        ret (false, mknode (first lc) (last rc) (u64 (covered lc + covered rc))
                           nd (Some lc) (Some rc))
      else assert_fail
  | _ => assert_fail
  end.

(** After a descent: [n->first = n->left->first; n->last = n->right->last;
    n->covered = n->left->covered + n->right->covered]. *)
Definition refresh_internal (n : node) : node :=
  match n with
  | mknode _ _ _ nd (Some lc) (Some rc) =>
      mknode (first lc) (last rc) (u64 (covered lc + covered rc)) nd
             (Some lc) (Some rc)
  | _ => n
  end.

(** [insert_into_internal]; [insL] and [insR] are the recursive calls
    [insert(n->left, first, last)] and [insert(n->right, first, last)]. *)
Definition insert_into_internal (p : path) (n : node)
    (insL insR : M (bool * node)) (f l : Z) : M (bool * node) :=
  match n with
  | mknode nf nl nc nd (Some lc) (Some rc) =>
      if (f <=? u64 (last lc + 1)) && (u64 (first rc - 1) <=? l) then
        (* overlaps with or adjacent to both children *)
        let nf' := if f <? nf then f else nf in
        let nl' := if nl <? l then l else nl in
        destroy lc ;;;
        destroy rc ;;;
        (if nf' =? 1 then set_proven p else ret tt) ;;;
        ret (false, mknode nf' nl' (u64 (u64 (nl' - nf') + 1)) nd None None)
      else
        let go_left := '(found, lc') <- insL ;;
                       ret (found, mknode nf nl nc nd (Some lc') (Some rc)) in
        let go_right := '(found, rc') <- insR ;;
                        ret (found, mknode nf nl nc nd (Some lc) (Some rc')) in
        '(found, n') <-
          (if (u64 (last lc + 1) <? f) && (l <? u64 (first rc - 1)) then
             (* sits between them, pass it to the shallowest one *)
             if depth lc <? depth rc then go_left else go_right
           else if l <? u64 (first rc - 1) then go_left
           else if u64 (last lc + 1) <? f then go_right
           else assert_fail) ;;
        ret (found, if found then n' else refresh_internal n')
  | _ => assert_fail
  end.

(** The entry [assert]s of [insert]. *)
Definition insert_asserts (n : node) (f l : Z) : bool :=
  (f <=? l) &&
  match left n, right n with
  | None, None => true
  | Some lc, Some rc => (first n =? first lc) && (last n =? last rc)
  | _, _ => false
  end.

(** "range was inserted, adjust coverage etc." *)
Definition insert_adjust (n : node) : node :=
  match n with
  | mknode nf nl _ nd None None =>
      mknode nf nl (u64 (u64 (nl - nf) + 1)) nd None None
  | _ => refresh_internal n
  end.

(** [insert]: returns [true] if the range was already in the tree. *)
Fixpoint insert (p : path) (n : node) (f l : Z) {struct n} : M (bool * node) :=
  if negb (insert_asserts n f l) then assert_fail else
  '(found, n') <-
    (if ((f =? l) && ((f =? first n) || (l =? last n))) ||
        (LEAF_NODE n && (f =? first n) && (l =? last n)) then
       (* trivial cases *)
       ret (true, n)
     else
       match n with
       | mknode _ _ _ _ (Some lc) (Some rc) =>
           insert_into_internal p n (insert (p ++ [false]) lc f l)
                                (insert (p ++ [true]) rc f l) f l
       | _ => insert_into_leaf p n f l
       end) ;;
  ret (found, if found then n' else insert_adjust n').

(** [lookup] *)
Fixpoint lookup (n : node) (num : Z) : bool :=
  match n with
  | mknode nf nl _ _ (Some lc) (Some rc) =>
      if (first lc <=? num) && (num <=? last lc) then lookup lc num
      else if (first rc <=? num) && (num <=? last rc) then lookup rc num
      else false
  | mknode nf nl _ _ _ _ =>
      (* LEAF_NODE; a node with one child is never built *)
      (nf <=? num) && (num <=? nl)
  end.

(** [fprintnodes]: the leaf ranges from left to right. *)
Fixpoint leaves (n : node) : list (Z * Z) :=
  match n with
  | mknode nf nl _ _ None None => [(nf, nl)]
  | mknode _ _ _ _ l r =>
      match l with Some c => leaves c | None => [] end ++
      match r with Some c => leaves c | None => [] end
  end.

(** ** The work queue

    [queue[]] is an array of [WORKQUEUE_SIZE] entries (a function from
    index to entry, initially all 0) with read and write cursors [qr] and
    [qw]; 0 is the "empty" value. *)

Record qstate := mkqstate {
  queue : Z -> Z;
  qr : Z;
  qw : Z
}.

(** [queue[i] = v] *)
Definition upd (q : Z -> Z) (i v : Z) : Z -> Z :=
  fun j => if j =? i then v else q j.

Section WorkQueue.

Variable WORKQUEUE_SIZE : Z.

(** [work_append] *)
Definition work_append (num : Z) (q : qstate) : bool * qstate :=
  if (qw q =? qr q) && negb (queue q (qw q) =? 0) then (false, q)
  else (true, mkqstate (upd (queue q) (qw q) num) (qr q)
                       ((qw q + 1) mod WORKQUEUE_SIZE)).

(** [work_fetch] *)
Definition work_fetch (q : qstate) : Z * qstate :=
  if (qr q =? qw q) && (queue q (qr q) =? 0) then (0, q)
  else (queue q (qr q),
        mkqstate (upd (queue q) (qr q) 0) ((qr q + 1) mod WORKQUEUE_SIZE) (qw q)).

(** The pending entries, oldest first (an abstraction used to state
    properties; the source's [WORKQUEUE_DEPTH] is the same count except
    that it reads 0 for a full queue). *)
Definition q_depth (q : qstate) : Z :=
  if qr q =? qw q then (if queue q (qr q) =? 0 then 0 else WORKQUEUE_SIZE)
  else (qw q - qr q) mod WORKQUEUE_SIZE.

Definition contents (q : qstate) : list Z :=
  map (fun i => queue q ((qr q + Z.of_nat i) mod WORKQUEUE_SIZE))
      (seq 0 (Z.to_nat (q_depth q))).

(** A queue state the code can reach: cursors in range, and the slots
    holding a non-zero value are exactly the [q_depth] slots from [qr]. *)
Definition q_wf (q : qstate) : Prop :=
  (0 <= qr q < WORKQUEUE_SIZE) /\ (0 <= qw q < WORKQUEUE_SIZE) /\
  (forall i, 0 <= i < WORKQUEUE_SIZE ->
     (queue q ((qr q + i) mod WORKQUEUE_SIZE) <> 0 <-> i < q_depth q)).

End WorkQueue.

(** The zero-filled static queue. *)
Definition q_init : qstate := mkqstate (fun _ => 0) 0 0.

(** [#define WORKQUEUE_SIZE (1<<20)] *)
Definition WORKQUEUE_SIZE : Z := 2 ^ 20.

(** ** Exploration *)

(** The globals of a run: [root], the tree counters, the queue.  [log]
    is ghost state: every value handed to [insert] by the explorer, with
    the result of the call, most recent first. *)
Record world := mkworld {
  root : node;
  ts : tstate;
  wq : qstate;
  log : list (Z * bool)
}.

(** [found = insert(root, num, num)] *)
Definition explore_insert (num : Z) (w : world) : option (bool * world) :=
  match insert [] (root w) num num (ts w) with
  | Some ((found, r'), ts') =>
      Some (found, mkworld r' ts' (wq w) ((num, found) :: log w))
  | None => None
  end.

(** [collatz_r], with [stop] as a parameter; [fuel] bounds the recursion
    depth and [None] means it ran out (or an [assert] fired). *)
Fixpoint collatz_r (stop : Z) (fuel : nat) (num : Z) (w : world) : option world :=
  match fuel with
  | O => None
  | S fuel' =>
      if stop <=? num then Some w else
      match explore_insert num w with
      | None => None
      | Some (true, w1) => Some w1
      | Some (false, w1) =>
          match collatz_r stop fuel' (u64 (num * 2)) w1 with
          | None => None
          | Some w2 =>
              let num' := u64 (num - 1) in             (* --num *)
              if num' mod 6 =? 3 then collatz_r stop fuel' (num' / 3) w2
              else Some w2
          end
      end
  end.

Definition set_wq (w : world) (q : qstate) : world :=
  mkworld (root w) (ts w) q (log w).

(** One iteration of the loop of [collatz_i]: [None] if an [assert]
    fired, [Some (true, w)] when [work_fetch] returned 0 and the loop
    exits, [Some (false, w)] otherwise. *)
Definition collatz_i_step (stop : Z) (w : world) : option (bool * world) :=
  let '(num, q1) := work_fetch WORKQUEUE_SIZE (wq w) in
  if num =? 0 then Some (true, set_wq w q1) else
  if stop <=? num then Some (false, set_wq w q1) else
  match explore_insert num (set_wq w q1) with
  | None => None
  | Some (true, w1) => Some (false, w1)
  | Some (false, w1) =>
      let q2 := snd (work_append WORKQUEUE_SIZE (u64 (num * 2)) (wq w1)) in
      let num' := u64 (num - 1) in                     (* --num *)
      let q3 := if num' mod 6 =? 3
                then snd (work_append WORKQUEUE_SIZE (num' / 3) q2)
                else q2 in
      Some (false, set_wq w1 q3)
  end.

(** [collatz_i], with [stop] as a parameter; [fuel] bounds the number of
    loop iterations. *)
Fixpoint collatz_i (stop : Z) (fuel : nat) (w : world) : option world :=
  match fuel with
  | O => None
  | S fuel' =>
      match collatz_i_step stop w with
      | None => None
      | Some (true, w') => Some w'
      | Some (false, w') => collatz_i stop fuel' w'
      end
  end.

(** Before [collatz()]: [root] and [proven] are NULL, counters are 0. *)
Definition ts_init : tstate := mktstate None 0 0 0.

(** The world right after [root = create(0, 1, 2)], and, for the
    iterative strategy, [work_append(4)]. *)
Definition collatz_init (opt_i : bool) : option world :=
  match create [] 0 1 2 ts_init with
  | None => None
  | Some (r, ts1) =>
      let w := mkworld r ts1 q_init [] in
      Some (if opt_i then set_wq w (snd (work_append WORKQUEUE_SIZE 4 q_init))
            else w)
  end.

(** [collatz()]: seed [1, 2] as the root, then run the selected strategy
    ([opt_i]) from 4. *)
Definition collatz (opt_i : bool) (stop : Z) (fuel : nat) : option world :=
  match collatz_init opt_i with
  | None => None
  | Some w => if opt_i then collatz_i stop fuel w else collatz_r stop fuel 4 w
  end.

Definition omap {A B} (f : A -> B) (o : option A) : option B :=
  match o with Some a => Some (f a) | None => None end.


(** The candidates generated from a newly recorded [num], in the order
    both strategies visit them: [num * 2], then, after [--num], [num / 3]
    when [num % 6 == 3]. *)
Definition successors (num : Z) : list Z :=
  u64 (num * 2) ::
  (if u64 (num - 1) mod 6 =? 3 then [u64 (num - 1) / 3] else []).

(** [collatz_r] called on each value of a list in turn. *)
Fixpoint collatz_r_all (stop : Z) (fuel : nat) (vs : list Z) (w : world)
    : option world :=
  match vs with
  | [] => Some w
  | v :: vs' =>
      match collatz_r stop fuel v w with
      | None => None
      | Some w' => collatz_r_all stop fuel vs' w'
      end
  end.

(** [work_append] called on each value of a list in turn. *)
Definition append_all (cap : Z) (vs : list Z) (q : qstate) : qstate :=
  fold_left (fun q v => snd (work_append cap v q)) vs q.

(** ** Observations *)

(** Enough iterations for the runs examined below. *)
Definition FUEL : nat := Z.to_nat (2 ^ 20).

(** [lookup(root, x)] after a run. *)
Definition run_lookup (opt_i : bool) (stop x : Z) : option bool :=
  omap (fun w => lookup (root w) x) (collatz opt_i stop FUEL).

(** The node a path leads to. *)
Fixpoint node_at (n : node) (p : path) : option node :=
  match p with
  | [] => Some n
  | b :: p' =>
      match (if b then right n else left n) with
      | Some c => node_at c p'
      | None => None
      end
  end.

(** [proven->last] *)
Definition proven_last (w : world) : option Z :=
  match proven (ts w) with
  | Some p => omap last (node_at (root w) p)
  | None => None
  end.

(** Number of nodes in a tree. *)
Fixpoint count_nodes (n : node) : Z :=
  1 + match left n with Some c => count_nodes c | None => 0 end
    + match right n with Some c => count_nodes c | None => 0 end.

(** The seeded tree: [root = create(0, 1, 2)]. *)
Definition seeded : M node := create [] 0 1 2.

(** Successive calls [insert(root, f, l)]. *)
Fixpoint insert_all (n : node) (rs : list (Z * Z)) : M node :=
  match rs with
  | [] => ret n
  | (f, l) :: rs' => '(_, n') <- insert [] n f l ;; insert_all n' rs'
  end.

Definition after_inserts (rs : list (Z * Z)) : option (node * tstate) :=
  (n <- seeded ;; insert_all n rs) ts_init.

(** Membership in the union of the seed range and the inserted ranges. *)
Definition in_ranges (x : Z) (rs : list (Z * Z)) : bool :=
  existsb (fun r => (fst r <=? x) && (x <=? snd r)) ((1, 2) :: rs).

(** The distinct values recorded during a run: the seed [1, 2] and every
    value whose [insert] returned false. *)
Definition recorded (w : world) : list Z :=
  nodup Z.eq_dec ([1; 2] ++ map fst (filter (fun e => negb (snd e)) (log w))).


(** ** Tree shape *)

(** Invariants 1-4 of the tree: children both present or both absent; an
    internal node spans from its left child's [first] to its right
    child's [last] and covers what they cover; a leaf covers its whole
    span; the left child ends more than one below the right child's
    start. *)
Fixpoint shape_ok (n : node) : Prop :=
  match n with
  | mknode f l c _ None None => c = l - f + 1
  | mknode f l c _ (Some lc) (Some rc) =>
      shape_ok lc /\ shape_ok rc /\ f = first lc /\ l = last rc /\
      c = covered lc + covered rc /\ last lc + 1 < first rc
  | _ => False
  end.

(** Largest value the tree can hold without [last + 1] wrapping. *)
Definition MAXV : Z := UINTMAX_MOD - 2.

(** [shape_ok] with every span inside [1, MAXV]. *)
Fixpoint wf_node (n : node) : Prop :=
  match n with
  | mknode f l c _ None None => 1 <= f <= l /\ l <= MAXV /\ c = l - f + 1
  | mknode f l c _ (Some lc) (Some rc) =>
      wf_node lc /\ wf_node rc /\ f = first lc /\ l = last rc /\
      c = covered lc + covered rc /\ last lc + 1 < first rc
  | _ => False
  end.

(** Path of the leftmost leaf below a node. *)
Fixpoint leftmost (n : node) : path :=
  match n with
  | mknode _ _ _ _ (Some lc) _ => false :: leftmost lc
  | _ => []
  end.

(** What [insert(n, f, l)] at path [p] may assume. *)
Definition ins_pre (p : path) (n : node) (f l : Z) (s : tstate) : Prop :=
  wf_node n /\ 1 <= f <= l /\ l <= MAXV /\ (first n = 1 \/ 1 < f) /\
  (first n = 1 -> proven s = Some (p ++ leftmost n)).

(** What it guarantees: no [assert] fires, the result is well formed and
    spans the union, an already-present range changes nothing, and
    [proven] keeps pointing at the leftmost leaf. *)
Definition ins_post (p : path) (n : node) (f l : Z) (s : tstate)
    (r : option ((bool * node) * tstate)) : Prop :=
  exists found n' s', r = Some ((found, n'), s') /\ wf_node n' /\
    first n' = Z.min (first n) f /\ last n' = Z.max (last n) l /\
    (found = true -> n' = n /\ s' = s) /\
    (first n = 1 -> proven s' = Some (p ++ leftmost n')) /\
    (first n <> 1 -> proven s' = proven s).

(** A range [insert] may be called with. *)
Definition valid_range (r : Z * Z) : Prop :=
  1 <= fst r <= snd r /\ snd r <= MAXV.

(** [proven] points at the leaf holding 1. *)
Definition proven_ok (n : node) (s : tstate) : Prop :=
  exists p m, proven s = Some p /\ node_at n p = Some m /\
              first m = 1 /\ LEAF_NODE m = true.

(** ** Membership *)

(** What an [insert] of [f, l] into [n] returning [found] and [n'] does
    to the set of values [lookup] reports. *)
Definition mem_spec (n : node) (f l : Z) (found : bool) (n' : node) : Prop :=
  (found = true <-> forall x, f <= x <= l -> lookup n x = true) /\
  (forall x, lookup n x = true -> lookup n' x = true) /\
  (forall x, f <= x <= l -> lookup n' x = true).

Definition mem_post (n : node) (f l : Z) (r : option ((bool * node) * tstate)) : Prop :=
  match r with
  | Some ((found, n'), _) => mem_spec n f l found n'
  | None => True
  end.

(** A list of ranges as [fprintnodes] prints them is in order with gaps:
    each range is non-empty and starts after [lo], where [lo] is one past
    the end of the previous range. *)
Fixpoint ranges_ok (lo : Z) (rs : list (Z * Z)) : Prop :=
  match rs with
  | [] => True
  | (a, b) :: t => lo < a <= b /\ ranges_ok (b + 1) t
  end.

(** Number of integers in a list of ranges. *)
Definition width_sum (rs : list (Z * Z)) : Z :=
  fold_right (fun r acc => snd r - fst r + 1 + acc) 0 rs.

(** Membership in a list of ranges. *)
Definition in_list (x : Z) (rs : list (Z * Z)) : bool :=
  existsb (fun r => (fst r <=? x) && (x <=? snd r)) rs.

(** ** Statistics and progress *)

(** [#define WORKQUEUE_DEPTH ((qw + WORKQUEUE_SIZE - qr) % WORKQUEUE_SIZE)],
    in [unsigned int]. *)
Definition WORKQUEUE_DEPTH (q : qstate) : Z :=
  u32 (qw q + WORKQUEUE_SIZE - qr q) mod WORKQUEUE_SIZE.

(** [#define PROGRESS_INTERVAL (1<<10)] *)
Definition PROGRESS_INTERVAL : Z := 2 ^ 10.

(** The percentage [progress] shows:
    [root->covered * 100 / (root->last - root->first + 1)] in [uintmax_t]. *)
Definition progress_pct (r : node) : Z :=
  u64 (covered r * 100) / u64 (last r - first r + 1).

(** Whether [progress(final)] writes its line, and the new value of its
    [static unsigned int count]:
    [if (tty && (final || count-- == 0)) { ...; count = PROGRESS_INTERVAL; }]. *)
Definition progress_tick (tty final : bool) (count : Z) : bool * Z :=
  if tty then
    if final then (true, PROGRESS_INTERVAL)
    else
      let count' := u32 (count - 1) in                 (* count-- *)
      if count =? 0 then (true, PROGRESS_INTERVAL) else (false, count')
  else (false, count).

(** Which of [k] successive [progress(false)] calls write, on a terminal,
    starting from [count]. *)
Fixpoint progress_calls (k : nat) (count : Z) : list bool :=
  match k with
  | O => []
  | S k' =>
      let '(written, count') := progress_tick true false count in
      written :: progress_calls k' count'
  end.

(** ** Runs *)

(** [main]: [log2max] (already read by [strtoul]) must lie in [3, 63];
    then [stop = (uintmax_t)1 << log2max]. *)
Definition main_stop (log2max : Z) : option Z :=
  if (log2max <? 3) || (63 <? log2max) then None
  else Some (u64 (Z.shiftl 1 log2max)).

(** The tree globals of a world are consistent: the tree is well formed,
    starts at 1, and [proven] is its leftmost leaf. *)
Definition world_ok (w : world) : Prop :=
  wf_node (root w) /\ first (root w) = 1 /\
  proven (ts w) = Some (leftmost (root w)).

(** The integers [a, b). *)
Definition zrange (a b : Z) : list Z :=
  map (fun i => a + Z.of_nat i) (seq 0 (Z.to_nat (b - a))).

(** How many values below [stop] [lookup] does not find. *)
Definition unrecorded (stop : Z) (n : node) : nat :=
  length (filter (fun x => negb (lookup n x)) (zrange 1 stop)).

(** Every value handed to [insert] lies in [1, stop). *)
Definition log_in (stop : Z) (es : list (Z * bool)) : Prop :=
  Forall (fun e => 1 <= fst e < stop) es.


(** The invariant of a [collatz_r] call below [stop <= 2^63]. *)
Definition r_post (stop num : Z) (w w' : world) : Prop :=
  world_ok w' /\ wq w' = wq w /\
  (exists new, log w' = new ++ log w /\ log_in stop new) /\
  (forall x, lookup (root w) x = true -> lookup (root w') x = true) /\
  (num < stop -> lookup (root w') num = true).


(** What [collatz_i] keeps between iterations: the tree globals are
    consistent, the queue is a reachable queue state and holds only
    non-zero values. *)
Definition i_inv (w : world) : Prop :=
  world_ok w /\ q_wf WORKQUEUE_SIZE (wq w) /\
  Forall (fun v => 0 < v) (contents WORKQUEUE_SIZE (wq w)).

(** Three per value below [stop] still to record, one per queued value. *)
Definition i_measure (stop : Z) (w : world) : nat :=
  3 * unrecorded stop (root w) + length (contents WORKQUEUE_SIZE (wq w)).

(** ** The recursion statistics of [collatz_r] *)

(** [static uintmax_t depth] of [collatz_r] and the global
    [unsigned int maxrecurse]. *)
Record rstat := mkrstat {
  rdepth : Z;
  maxrecurse : Z
}.

(** [collatz_r] with its statistics: [++depth] and the [maxrecurse]
    update on entry (the [uintmax_t] depth is compared with the promoted
    [maxrecurse] and stored truncated), and [--depth] only on the path
    that falls through to the end of the function. *)
Fixpoint collatz_rd (stop : Z) (fuel : nat) (num : Z) (w : world) (st : rstat)
    : option (world * rstat) :=
  match fuel with
  | O => None
  | S fuel' =>
      let d := u64 (rdepth st + 1) in                  (* ++depth *)
      let st1 := mkrstat d (if maxrecurse st <? d then u32 d else maxrecurse st) in
      if stop <=? num then Some (w, st1) else
      match explore_insert num w with
      | None => None
      | Some (true, w1) => Some (w1, st1)
      | Some (false, w1) =>
          match collatz_rd stop fuel' (u64 (num * 2)) w1 st1 with
          | None => None
          | Some (w2, st2) =>
              let num' := u64 (num - 1) in             (* --num *)
              match (if num' mod 6 =? 3 then collatz_rd stop fuel' (num' / 3) w2 st2
                     else Some (w2, st2)) with
              | None => None
              | Some (w3, st3) =>
                  Some (w3, mkrstat (u64 (rdepth st3 - 1)) (maxrecurse st3))  (* --depth *)
              end
          end
      end
  end.

(** A logged call of [collatz_r] that fell through ([found] false) and
    whose [--num % 6 == 3] test made it recurse a second time. *)
Definition two_calls (e : Z * bool) : bool :=
  negb (snd e) && (u64 (fst e - 1) mod 6 =? 3).
(** * Properties *)

(** ** Unfolding the explorers *)

Lemma collatz_r_unfold stop fuel num w :
  collatz_r stop (S fuel) num w =
  if stop <=? num then Some w else
  match explore_insert num w with
  | None => None
  | Some (true, w1) => Some w1
  | Some (false, w1) => collatz_r_all stop fuel (successors num) w1
  end.
Proof.
  simpl. destruct (stop <=? num); [reflexivity|].
  destruct (explore_insert num w) as [[[|] w1]|]; try reflexivity.
  unfold successors.
  destruct (collatz_r stop fuel (u64 (num * 2)) w1) as [w2|]; [|reflexivity].
  destruct (u64 (num - 1) mod 6 =? 3); simpl.
  - destruct (collatz_r stop fuel (u64 (num - 1) / 3) w2); reflexivity.
  - reflexivity.
Qed.

Lemma collatz_i_step_unfold stop w num q1 w1 :
  work_fetch WORKQUEUE_SIZE (wq w) = (num, q1) ->
  num <> 0 -> num < stop ->
  explore_insert num (set_wq w q1) = Some (false, w1) ->
  collatz_i_step stop w = Some (false, set_wq w1 (append_all WORKQUEUE_SIZE (successors num) (wq w1))).
Proof.
  intros Hf Hn Hs Hi. unfold collatz_i_step. rewrite Hf.
  apply Z.eqb_neq in Hn. rewrite Hn.
  replace (stop <=? num) with false by (symmetry; apply Z.leb_gt; lia).
  rewrite Hi. unfold append_all, successors. simpl.
  destruct (u64 (num - 1) mod 6 =? 3); reflexivity.
Qed.

Lemma u64_small x : 0 <= x < UINTMAX_MOD -> u64 x = x.
Proof. intros H. unfold u64. apply Z.mod_small. exact H. Qed.

Lemma UINTMAX_MOD_eq : UINTMAX_MOD = 2 * 2 ^ 63.
Proof. reflexivity. Qed.

Lemma successors_eq num :
  1 <= num < 2 ^ 63 ->
  successors num =
  2 * num :: (if (num - 1) mod 6 =? 3 then [(num - 1) / 3] else []).
Proof.
  intros H. unfold successors.
  rewrite (u64_small (num * 2)) by (rewrite UINTMAX_MOD_eq; lia).
  rewrite (u64_small (num - 1)) by (rewrite UINTMAX_MOD_eq; lia).
  f_equal. lia.
Qed.

Lemma mod6_3_odd_third (m : Z) :
  m mod 6 = 3 <-> exists k, m = 3 * k /\ Z.odd k = true.
Proof.
  split.
  - intros H. pose proof (Z.div_mod m 6 ltac:(lia)) as Hm.
    rewrite H in Hm. set (q := m / 6) in *.
    exists (1 + 2 * q). split; [lia|].
    rewrite Z.odd_add_mul_2. reflexivity.
  - intros [k [-> Hk]].
    rewrite (Zodd_div2 k) by (apply Zodd_bool_iff; exact Hk).
    replace (3 * (2 * Z.div2 k + 1)) with (3 + Z.div2 k * 6) by lia.
    rewrite Z.mod_add by lia. reflexivity.
Qed.

(** ** The work queue *)

Section WorkQueueProofs.

Variable cap : Z.
Hypothesis cap_pos : 0 < cap.

Lemma wq_mod_inj a i j :
  0 <= i < cap -> 0 <= j < cap -> (a + i) mod cap = (a + j) mod cap -> i = j.
Proof.
  intros Hi Hj E.
  pose proof (Z.div_mod (a + i) cap ltac:(lia)) as Di.
  pose proof (Z.div_mod (a + j) cap ltac:(lia)) as Dj.
  rewrite E in Di.
  assert (Hk : i - j = cap * ((a + i) / cap - (a + j) / cap)) by lia.
  destruct (Z.lt_total ((a + i) / cap) ((a + j) / cap)) as [L|[L|L]]; [nia| |nia].
  rewrite L in Hk. lia.
Qed.

Lemma wq_mod_self a : 0 <= a < cap -> a mod cap = a.
Proof. intros. apply Z.mod_small. lia. Qed.

Lemma wq_depth_range q :
  0 <= qr q < cap -> 0 <= qw q < cap ->
  0 <= q_depth cap q <= cap /\
  (qr q <> qw q -> 0 < q_depth cap q < cap) /\
  (qr q + q_depth cap q) mod cap = qw q.
Proof.
  intros Hr Hw. unfold q_depth.
  destruct (Z.eqb_spec (qr q) (qw q)) as [E|E].
  - destruct (queue q (qr q) =? 0); (split; [lia|split; [intros; contradiction|]]).
    + rewrite Z.add_0_r, wq_mod_self; lia.
    + replace (qr q + cap) with (qr q + 1 * cap) by lia.
      rewrite Z.mod_add, wq_mod_self; lia.
  - assert (B : 0 <= (qw q - qr q) mod cap < cap) by (apply Z.mod_pos_bound; lia).
    assert (N : (qw q - qr q) mod cap <> 0).
    { intros Z0. apply E.
      pose proof (Z.div_mod (qw q - qr q) cap ltac:(lia)) as D.
      rewrite Z0 in D. set (k := (qw q - qr q) / cap) in *.
      destruct (Z.lt_total k 0) as [L|[L|L]]; [nia| rewrite L in D; lia | nia]. }
    split; [lia|split; [lia|]].
    rewrite Z.add_mod_idemp_r by lia.
    replace (qr q + (qw q - qr q)) with (qw q) by lia.
    apply wq_mod_self; lia.
Qed.

Lemma wq_contents_length q :
  length (contents cap q) = Z.to_nat (q_depth cap q).
Proof. unfold contents. rewrite length_map, length_seq. reflexivity. Qed.

Lemma wq_depth_zero q :
  q_wf cap q -> q_depth cap q = 0 -> qr q = qw q /\ queue q (qr q) = 0.
Proof.
  intros (Hr & Hw & Hq) D.
  destruct (wq_depth_range q Hr Hw) as (_ & Hne & _).
  destruct (Z.eqb_spec (qr q) (qw q)) as [E|E]; [|specialize (Hne E); lia].
  split; [exact E|].
  destruct (Z.eqb_spec (queue q (qr q)) 0) as [Z0|Z0]; [exact Z0|].
  unfold q_depth in D. rewrite E, Z.eqb_refl in D.
  rewrite <- E in D. apply Z.eqb_neq in Z0. rewrite Z0 in D. lia.
Qed.

Lemma wq_depth_full q :
  q_wf cap q -> q_depth cap q = cap -> qr q = qw q /\ queue q (qr q) <> 0.
Proof.
  intros (Hr & Hw & Hq) D.
  destruct (wq_depth_range q Hr Hw) as (_ & Hne & _).
  destruct (Z.eqb_spec (qr q) (qw q)) as [E|E]; [|specialize (Hne E); lia].
  split; [exact E|].
  specialize (Hq 0 ltac:(lia)). rewrite Z.add_0_r, wq_mod_self in Hq by lia.
  apply Hq. lia.
Qed.

(** [work_append] on a full queue returns false and changes nothing. *)
Lemma wq_append_full q v :
  q_wf cap q -> q_depth cap q = cap -> work_append cap v q = (false, q).
Proof.
  intros W D. destruct (wq_depth_full q W D) as [E N].
  unfold work_append. rewrite E, Z.eqb_refl. rewrite <- E.
  apply Z.eqb_neq in N. rewrite N. reflexivity.
Qed.

(** [work_append] of a non-zero value on a queue with room. *)
Lemma wq_append_room q v :
  q_wf cap q -> v <> 0 -> q_depth cap q < cap ->
  exists q', work_append cap v q = (true, q') /\
             contents cap q' = contents cap q ++ [v] /\ q_wf cap q' /\
             queue q' (qw q) = v /\ qr q' = qr q /\ qw q' = (qw q + 1) mod cap.
Proof.
  intros W Hv D. pose proof W as (Hr & Hw & Hq).
  destruct (wq_depth_range q Hr Hw) as (Dr & Hne & Hpos).
  set (d := q_depth cap q) in *.
  set (q' := mkqstate (upd (queue q) (qw q) v) (qr q) ((qw q + 1) mod cap)).
  assert (Happ : work_append cap v q = (true, q')).
  { unfold work_append.
    destruct (Z.eqb_spec (qw q) (qr q)) as [E|E]; [|reflexivity].
    destruct (Z.eqb_spec (queue q (qw q)) 0) as [Z0|Z0]; [reflexivity|].
    exfalso. unfold d, q_depth in D. rewrite E, Z.eqb_refl in D.
    rewrite <- E in D. apply Z.eqb_neq in Z0. rewrite Z0 in D. lia. }
  (* the slot of index i is the write cursor exactly for i = d *)
  assert (Hslot : forall i, 0 <= i < cap -> ((qr q + i) mod cap = qw q <-> i = d)).
  { intros i Hi. split.
    - intros E. apply (wq_mod_inj (qr q)); [lia|lia|]. rewrite E. symmetry. exact Hpos.
    - intros ->. exact Hpos. }
  assert (Hqw' : qw q' = (qr q + (d + 1)) mod cap).
  { simpl. rewrite <- Hpos, Z.add_mod_idemp_l by lia. f_equal. lia. }
  assert (D' : q_depth cap q' = d + 1).
  { unfold q_depth. rewrite Hqw'. unfold q'; cbn [qr].
    destruct (Z.eq_dec (d + 1) cap) as [Ec|Ec].
    - rewrite Ec. replace (qr q + cap) with (qr q + 1 * cap) by lia.
      rewrite Z.mod_add, wq_mod_self, Z.eqb_refl by lia.
      unfold q'; cbn [queue]. unfold upd.
      destruct (Z.eqb_spec (qr q) (qw q)) as [E|E].
      + apply Z.eqb_neq in Hv. rewrite Hv. lia.
      + specialize (Hq 0 ltac:(lia)). rewrite Z.add_0_r, wq_mod_self in Hq by lia.
        destruct (Z.eqb_spec (queue q (qr q)) 0) as [Z0|Z0]; [|lia].
        exfalso. pose proof (Hne E). apply (proj2 Hq); [lia|exact Z0].
    - destruct (Z.eqb_spec (qr q) ((qr q + (d + 1)) mod cap)) as [E|E].
      + exfalso. assert (0 = d + 1); [|lia].
        apply (wq_mod_inj (qr q)); [lia|lia|].
        rewrite Z.add_0_r, wq_mod_self by lia. exact E.
      + rewrite Zminus_mod_idemp_l.
        replace (qr q + (d + 1) - qr q) with (d + 1) by lia.
        apply wq_mod_self. lia. }
  exists q'. split; [exact Happ|]. split; [|split; [|split; [|split]]].
  - unfold contents. rewrite D'. unfold q'; cbn [qr].
    replace (Z.to_nat (d + 1)) with (Datatypes.S (Z.to_nat d)) by lia.
    rewrite seq_S, map_app. simpl map at 2. f_equal.
    + apply map_ext_in. intros i Hi. apply in_seq in Hi.
      unfold q'; cbn [queue]. unfold upd.
      destruct (Z.eqb_spec ((qr q + Z.of_nat i) mod cap) (qw q)) as [E|E]; [|reflexivity].
      apply Hslot in E; lia.
    + unfold q'; cbn [queue]. unfold upd. rewrite Z2Nat.id by lia.
      rewrite Hpos, Z.eqb_refl. reflexivity.
  - split; [simpl; lia|]. split; [simpl; apply Z.mod_pos_bound; lia|].
    intros i Hi. rewrite D'. unfold q'; cbn [queue]. unfold q'; cbn [qr]. unfold upd.
    destruct (Z.eqb_spec ((qr q + i) mod cap) (qw q)) as [E|E].
    + apply Hslot in E; [|exact Hi]. lia.
    + rewrite (Hq i Hi). assert (i <> d) by (intros ->; apply E, Hslot; lia). lia.
  - simpl. unfold upd. rewrite Z.eqb_refl. reflexivity.
  - reflexivity.
  - reflexivity.
Qed.

(** [work_fetch] on an empty queue returns 0 and changes nothing. *)
Lemma wq_fetch_empty q :
  q_wf cap q -> q_depth cap q = 0 -> work_fetch cap q = (0, q).
Proof.
  intros W D. destruct (wq_depth_zero q W D) as [E Z0].
  unfold work_fetch. rewrite E, Z.eqb_refl. rewrite <- E, Z0. reflexivity.
Qed.

(** [work_fetch] on a non-empty queue returns and clears the oldest
    entry and advances [qr]. *)
Lemma wq_fetch_some q :
  q_wf cap q -> 0 < q_depth cap q ->
  exists q', work_fetch cap q = (queue q (qr q), q') /\
             contents cap q = queue q (qr q) :: contents cap q' /\ q_wf cap q' /\
             queue q' (qr q) = 0 /\ qr q' = (qr q + 1) mod cap /\ qw q' = qw q.
Proof.
  intros W D. pose proof W as (Hr & Hw & Hq).
  destruct (wq_depth_range q Hr Hw) as (Dr & Hne & Hpos).
  set (d := q_depth cap q) in *.
  set (q' := mkqstate (upd (queue q) (qr q) 0) ((qr q + 1) mod cap) (qw q)).
  assert (Hf : work_fetch cap q = (queue q (qr q), q')).
  { unfold work_fetch.
    destruct (Z.eqb_spec (qr q) (qw q)) as [E|E]; [|reflexivity].
    destruct (Z.eqb_spec (queue q (qr q)) 0) as [Z0|Z0]; [|reflexivity].
    exfalso. specialize (Hq 0 ltac:(lia)).
    rewrite Z.add_0_r, wq_mod_self in Hq by lia.
    apply (proj2 Hq); [lia|exact Z0]. }
  (* slot i of the new queue is slot i + 1 of the old one *)
  assert (Hidx : forall i, ((qr q' + i) mod cap) = (qr q + (1 + i)) mod cap).
  { intros i. unfold q'; cbn [qr]. rewrite Z.add_mod_idemp_l by lia. f_equal. lia. }
  assert (Hnot0 : forall i, 0 <= i -> 1 + i < cap -> (qr q + (1 + i)) mod cap <> qr q).
  { intros i Hi Hi' E. assert (1 + i = 0); [|lia].
    apply (wq_mod_inj (qr q)); [lia|lia|].
    rewrite Z.add_0_r, (wq_mod_self (qr q)) by lia. exact E. }
  assert (D' : q_depth cap q' = d - 1).
  { unfold q_depth. unfold q'; cbn [qr]. unfold q'; cbn [qw].
    destruct (Z.eq_dec d 1) as [E1|E1].
    - rewrite E1 in Hpos. rewrite Hpos, Z.eqb_refl. unfold q'; cbn [queue]. unfold upd.
      destruct (Z.eqb_spec (qw q) (qr q)) as [E|E].
      + rewrite Z.eqb_refl. lia.
      + assert (cap <> 1) by (intros C; apply E; rewrite <- Hpos, C, Z.mod_1_r;
                              assert (qr q = 0) by lia; congruence).
        specialize (Hq 1 ltac:(lia)). rewrite Hpos in Hq.
        destruct (Z.eqb_spec (queue q (qw q)) 0) as [Z0|Z0]; [lia|].
        exfalso. apply Z0. destruct (Z.eq_dec (queue q (qw q)) 0); [assumption|].
        apply Hq in n. lia.
    - destruct (Z.eqb_spec ((qr q + 1) mod cap) (qw q)) as [E|E].
      + exfalso. rewrite <- Hpos in E.
        destruct (Z.eq_dec d cap) as [Ec|Ec].
        * rewrite Ec in E. replace (qr q + cap) with (qr q + 0 + 1 * cap) in E by lia.
          rewrite Z.mod_add in E by lia.
          assert (1 = 0) by (apply (wq_mod_inj (qr q)); lia). lia.
        * assert (1 = d) by (apply (wq_mod_inj (qr q)); lia). lia.
      + rewrite <- Hpos, <- Zminus_mod.
        replace (qr q + d - (qr q + 1)) with (d - 1) by lia.
        apply wq_mod_self. lia. }
  exists q'. split; [exact Hf|]. split; [|split; [|split; [|split]]].
  - unfold contents. rewrite D'. fold d.
    replace (Z.to_nat d) with (Datatypes.S (Z.to_nat (d - 1))) by lia.
    simpl seq. simpl map. f_equal.
    + rewrite Z.add_0_r, wq_mod_self by lia. reflexivity.
    + rewrite <- seq_shift, map_map. apply map_ext_in.
      intros i Hi. apply in_seq in Hi. rewrite Hidx. unfold q'; cbn [queue]. unfold upd.
      destruct (Z.eqb_spec ((qr q + (1 + Z.of_nat i)) mod cap) (qr q)) as [E|E].
      * exfalso. apply (Hnot0 (Z.of_nat i)); [lia|lia|exact E].
      * f_equal. f_equal. lia.
  - split; [simpl; apply Z.mod_pos_bound; lia|]. split; [simpl; lia|].
    intros i Hi. rewrite D', Hidx. unfold q'; cbn [queue]. unfold upd.
    destruct (Z.eqb_spec ((qr q + (1 + i)) mod cap) (qr q)) as [E|E].
    + assert (1 + i = cap).
      { destruct (Z.eq_dec (1 + i) cap) as [C|C]; [exact C|].
        exfalso. apply (Hnot0 i); lia. }
      lia.
    + assert (1 + i < cap).
      { destruct (Z.eq_dec (1 + i) cap) as [C|C]; [|lia].
        exfalso. apply E. rewrite C.
        replace (qr q + cap) with (qr q + 1 * cap) by lia.
        rewrite Z.mod_add, wq_mod_self by lia. reflexivity. }
      rewrite (Hq (1 + i) ltac:(lia)). lia.
  - simpl. unfold upd. rewrite Z.eqb_refl. reflexivity.
  - reflexivity.
  - reflexivity.
Qed.

End WorkQueueProofs.

Lemma q_init_wf cap : 0 < cap -> q_wf cap q_init.
Proof.
  intros Hc. split; [simpl; lia|]. split; [simpl; lia|].
  intros i Hi. unfold q_depth. simpl.
  split; [intros H; exfalso; apply H; reflexivity|lia].
Qed.

(** C7: for a queue of capacity [cap] in a reachable state and a
    non-zero value [v] (0 is the empty value): [work_append] on a full
    queue returns false and leaves the state unchanged; otherwise it
    returns true, stores [v] at [qw], advances [qw] modulo [cap] and adds
    [v] after the pending entries.  [work_fetch] with no pending entry
    returns 0 and leaves the state unchanged; otherwise it returns the
    oldest entry, clears its slot and advances [qr] modulo [cap], the
    other entries staying pending in order.  With capacity 8: [append(4)]
    then [fetch()] on a fresh queue yields 4, [fetch()] on a fresh queue
    yields 0, and once 8 entries are stored one more [append] returns
    false and leaves them as they were. *)
Theorem C7_work_queue (cap : Z) (q : qstate) (v : Z) :
  0 < cap -> q_wf cap q -> v <> 0 ->
  (length (contents cap q) = Z.to_nat cap ->
     work_append cap v q = (false, q)) /\
  (length (contents cap q) <> Z.to_nat cap ->
     exists q', work_append cap v q = (true, q') /\
       queue q' (qw q) = v /\ qw q' = (qw q + 1) mod cap /\ qr q' = qr q /\
       contents cap q' = contents cap q ++ [v] /\ q_wf cap q') /\
  (contents cap q = [] -> work_fetch cap q = (0, q)) /\
  (forall x rest, contents cap q = x :: rest ->
     exists q', work_fetch cap q = (x, q') /\
       queue q' (qr q) = 0 /\ qr q' = (qr q + 1) mod cap /\ qw q' = qw q /\
       contents cap q' = rest /\ q_wf cap q') /\
  fst (work_fetch 8 (snd (work_append 8 4 q_init))) = 4 /\
  fst (work_fetch 8 q_init) = 0 /\
  (let full := append_all 8 [4; 5; 6; 7; 8; 9; 10; 11] q_init in
   work_append 8 12 full = (false, full) /\
   contents 8 full = [4; 5; 6; 7; 8; 9; 10; 11]).
Proof.
  intros Hc W Hv.
  pose proof W as (Hr & Hw & _).
  destruct (wq_depth_range cap Hc q Hr Hw) as (Dr & _ & _).
  pose proof (wq_contents_length cap q) as Hlen.
  split; [|split; [|split; [|split]]].
  - intros Hfull. apply (wq_append_full cap Hc); [exact W|]. lia.
  - intros Hroom.
    destruct (wq_append_room cap Hc q v W Hv ltac:(lia))
      as (q' & H1 & H2 & H3 & H4 & H5 & H6).
    exists q'. split; [exact H1|]. split; [exact H4|]. split; [exact H6|].
    split; [exact H5|]. split; [exact H2|exact H3].
  - intros Hnil. apply (wq_fetch_empty cap Hc); [exact W|].
    rewrite Hnil in Hlen. simpl in Hlen. lia.
  - intros x rest Hcons.
    assert (Hd : 0 < q_depth cap q) by (rewrite Hcons in Hlen; simpl in Hlen; lia).
    destruct (wq_fetch_some cap Hc q W Hd) as (q' & H1 & H2 & H3 & H4 & H5 & H6).
    rewrite Hcons in H2. injection H2 as Hx Hrest. subst x rest.
    exists q'. split; [exact H1|]. split; [exact H4|]. split; [exact H5|].
    split; [exact H6|]. split; [reflexivity|exact H3].
  - split; [vm_compute; reflexivity|]. split; [vm_compute; reflexivity|].
    split; vm_compute; reflexivity.
Qed.

Lemma C7_witness :
  (0 < 8 /\ q_wf 8 q_init /\ 4 <> 0) /\
  (length (contents 8 q_init) = Z.to_nat 8 ->
     work_append 8 4 q_init = (false, q_init)) /\
  (length (contents 8 q_init) <> Z.to_nat 8 ->
     exists q', work_append 8 4 q_init = (true, q') /\
       queue q' (qw q_init) = 4 /\ qw q' = (qw q_init + 1) mod 8 /\
       qr q' = qr q_init /\
       contents 8 q' = contents 8 q_init ++ [4] /\ q_wf 8 q') /\
  (contents 8 q_init = [] -> work_fetch 8 q_init = (0, q_init)) /\
  (forall x rest, contents 8 q_init = x :: rest ->
     exists q', work_fetch 8 q_init = (x, q') /\
       queue q' (qr q_init) = 0 /\ qr q' = (qr q_init + 1) mod 8 /\
       qw q' = qw q_init /\ contents 8 q' = rest /\ q_wf 8 q') /\
  fst (work_fetch 8 (snd (work_append 8 4 q_init))) = 4 /\
  fst (work_fetch 8 q_init) = 0 /\
  (let full := append_all 8 [4; 5; 6; 7; 8; 9; 10; 11] q_init in
   work_append 8 12 full = (false, full) /\
   contents 8 full = [4; 5; 6; 7; 8; 9; 10; 11]).
Proof.
  assert (H1 : 0 < 8) by lia.
  assert (H2 : q_wf 8 q_init) by (apply q_init_wf; lia).
  assert (H3 : 4 <> 0) by lia.
  split; [split; [exact H1|split; [exact H2|exact H3]]|].
  exact (C7_work_queue 8 q_init 4 H1 H2 H3).
Defined.

(** ** Runs of the explorer *)




(** C2 (counterexample): with ceiling 8, [lookup(8)] is false after the
    recursive run. *)
Lemma C2_counterexample : run_lookup false 8 8 = Some false.
Proof. vm_compute. reflexivity. Qed.

(** C2 (amended): with ceiling 8 both strategies terminate, only values
    below 8 are handed to [insert], the tree holds [1, 2] and [4, 4], and
    [lookup(8)] and [lookup(16)] are both false. *)
Theorem C2_ceiling_8 (opt_i : bool) :
  exists w, collatz opt_i 8 FUEL = Some w /\
            Forall (fun e => fst e < 8) (log w) /\
            leaves (root w) = [(1, 2); (4, 4)] /\
            lookup (root w) 8 = false /\ lookup (root w) 16 = false.
Proof.
  destruct opt_i; eexists; (split; [vm_compute; reflexivity|]);
    vm_compute; repeat split; repeat constructor; discriminate.
Qed.

(** C3 (failing input): after seeding and inserting [10, 10], [4, 4] and
    [3, 3], [lookup(7)] is true although 7 is in none of the ranges:
    inserting 3 coalesces the root's children [1, 2] and [4, 10], and the
    right child's gap [5, 9] is absorbed. *)
Theorem C3_coalesce_gap :
  omap (fun r => (lookup (fst r) 7, leaves (fst r)))
       (after_inserts [(10, 10); (4, 4); (3, 3)]) = Some (true, [(1, 10)]) /\
  in_ranges 7 [(10, 10); (4, 4); (3, 3)] = false.
Proof. split; vm_compute; reflexivity. Qed.

(** C4 (failing input): with ceiling 64 the two strategies end with
    different trees and different [proven->last]. *)
Theorem C4_strategies_differ :
  omap (fun w => (leaves (root w), proven_last w)) (collatz false 64 FUEL)
    = Some ([(1, 56)], Some 56) /\
  omap (fun w => (leaves (root w), proven_last w)) (collatz true 64 FUEL)
    = Some ([(1, 32); (40, 40)], Some 32).
Proof. split; vm_compute; reflexivity. Qed.

(** C8 (failing input): after the recursive run with ceiling 32,
    [root->covered] is 20 while only 9 distinct values were recorded and
    only 10 distinct values (with the seed) were ever handed to
    [insert]. *)
Theorem C8_covered_overcounts :
  omap (fun w => (covered (root w), length (recorded w),
                  length (nodup Z.eq_dec ([1; 2] ++ map fst (log w)))))
       (collatz false 32 FUEL) = Some (20, 9%nat, 10%nat).
Proof. vm_compute. reflexivity. Qed.

(** C9 (counterexample): in the first iteration of the iterative strategy
    (ceiling 8), 4 is fetched and both 8 and 1 are placed on the queue;
    1 is below 4. *)
Lemma C9_counterexample :
  match collatz_init true with
  | Some w => omap (fun r => contents WORKQUEUE_SIZE (wq (snd r)))
                   (collatz_i_step 8 w)
  | None => None
  end = Some [8; 1].
Proof. vm_compute. reflexivity. Qed.

(** C10 (failing input): right after [root = create(0, 1, 2)] the counter
    [nodes] is 2 for one node, and after the run with ceiling 8 it is 6
    for three nodes: [create] counts every node twice. *)
Theorem C10_nodes_double_counted :
  omap (fun w => (nodes (ts w), count_nodes (root w))) (collatz_init false)
    = Some (2, 1) /\
  omap (fun w => (nodes (ts w), count_nodes (root w))) (collatz false 8 FUEL)
    = Some (6, 3).
Proof. split; vm_compute; reflexivity. Qed.

(** ** Candidate generation *)

(** C6: for a value [v] below a ceiling of at most 2^63 (the largest
    [main] accepts) whose [insert] reports it new, the recursive strategy
    continues with exactly [2v] and then, when [(v - 1) mod 6 = 3],
    [(v - 1) / 3]; the iterative strategy appends exactly the same values
    in the same order; and [(v - 1) mod 6 = 3] holds iff [(v - 1) / 3] is
    an odd integer. *)
Theorem C6_successors (stop v : Z) :
  1 <= v < stop -> stop <= 2 ^ 63 ->
  (forall fuel w w1, explore_insert v w = Some (false, w1) ->
     collatz_r stop (S fuel) v w =
     collatz_r_all stop fuel
       (2 * v :: (if (v - 1) mod 6 =? 3 then [(v - 1) / 3] else [])) w1) /\
  (forall w q1 w1, work_fetch WORKQUEUE_SIZE (wq w) = (v, q1) ->
     explore_insert v (set_wq w q1) = Some (false, w1) ->
     collatz_i_step stop w =
     Some (false, set_wq w1 (append_all WORKQUEUE_SIZE
       (2 * v :: (if (v - 1) mod 6 =? 3 then [(v - 1) / 3] else [])) (wq w1)))) /\
  ((v - 1) mod 6 = 3 <-> exists k, v - 1 = 3 * k /\ Z.odd k = true).
Proof.
  intros Hv Hs. rewrite <- successors_eq by lia.
  split; [|split].
  - intros fuel w w1 Hi. rewrite collatz_r_unfold.
    replace (stop <=? v) with false by (symmetry; apply Z.leb_gt; lia).
    rewrite Hi. reflexivity.
  - intros w q1 w1 Hf Hi. apply (collatz_i_step_unfold stop w v q1 w1); auto; lia.
  - apply mod6_3_odd_third.
Qed.

Lemma C6_witness :
  (1 <= 4 < 1024 /\ 1024 <= 2 ^ 63) /\
  ((forall fuel w w1, explore_insert 4 w = Some (false, w1) ->
     collatz_r 1024 (S fuel) 4 w =
     collatz_r_all 1024 fuel
       (2 * 4 :: (if (4 - 1) mod 6 =? 3 then [(4 - 1) / 3] else [])) w1) /\
  (forall w q1 w1, work_fetch WORKQUEUE_SIZE (wq w) = (4, q1) ->
     explore_insert 4 (set_wq w q1) = Some (false, w1) ->
     collatz_i_step 1024 w =
     Some (false, set_wq w1 (append_all WORKQUEUE_SIZE
       (2 * 4 :: (if (4 - 1) mod 6 =? 3 then [(4 - 1) / 3] else [])) (wq w1)))) /\
  ((4 - 1) mod 6 = 3 <-> exists k, 4 - 1 = 3 * k /\ Z.odd k = true)).
Proof.
  assert (H1 : 1 <= 4 < 1024) by lia.
  assert (H2 : 1024 <= 2 ^ 63) by (apply Z.leb_le; reflexivity).
  split; [split; assumption|].
  exact (C6_successors 1024 4 H1 H2).
Defined.

(** C9 (amended): an iteration of the iterative strategy that fetches a
    value [num] (not 0, below a ceiling of at most 2^63) and records it
    appends values that are all at least 1, so never the empty value 0;
    values below 4 (1 from 4) do occur. *)
Theorem C9_appended_positive (stop : Z) (w : world) (num : Z) (q1 : qstate)
    (w1 : world) :
  stop <= 2 ^ 63 -> 0 < num < stop ->
  work_fetch WORKQUEUE_SIZE (wq w) = (num, q1) ->
  explore_insert num (set_wq w q1) = Some (false, w1) ->
  exists vs, collatz_i_step stop w = Some (false, set_wq w1 (append_all WORKQUEUE_SIZE vs (wq w1))) /\
             Forall (fun v => 1 <= v) vs.
Proof.
  intros Hs Hn Hf Hi. exists (successors num). split.
  - apply (collatz_i_step_unfold stop w num q1 w1); auto; lia.
  - rewrite successors_eq by lia.
    constructor; [lia|].
    destruct (Z.eqb_spec ((num - 1) mod 6) 3) as [E|E]; repeat constructor.
    pose proof (Z.div_mod (num - 1) 6 ltac:(lia)) as Hm. rewrite E in Hm.
    apply Z.div_le_lower_bound; lia.
Qed.

Lemma C9_witness :
  exists w q1 w1 vs,
    collatz_init true = Some w /\
    work_fetch WORKQUEUE_SIZE (wq w) = (4, q1) /\
    explore_insert 4 (set_wq w q1) = Some (false, w1) /\
    collatz_i_step 8 w = Some (false, set_wq w1 (append_all WORKQUEUE_SIZE vs (wq w1))) /\
    Forall (fun v => 1 <= v) vs.
Proof.
  destruct (collatz_init true) as [w|] eqn:Hw; [|discriminate Hw].
  destruct (work_fetch WORKQUEUE_SIZE (wq w)) as [num q1] eqn:Hf.
  assert (Hn : num = 4) by
    (injection Hw as <-; vm_compute in Hf; injection Hf as <- _; reflexivity).
  subst num.
  destruct (explore_insert 4 (set_wq w q1)) as [[[|] w1]|] eqn:Hi;
    [vm_compute in Hw; injection Hw as <-; vm_compute in Hf;
     injection Hf as <-; vm_compute in Hi; discriminate Hi| |
     vm_compute in Hw; injection Hw as <-; vm_compute in Hf;
     injection Hf as <-; vm_compute in Hi; discriminate Hi].
  assert (Hs : 8 <= 2 ^ 63) by (apply Z.leb_le; reflexivity).
  destruct (C9_appended_positive 8 w 4 q1 w1 Hs ltac:(lia) Hf Hi) as [vs [H1 H2]].
  exists w, q1, w1, vs. repeat split; assumption.
Defined.

(** ** Proofs of the tree invariants *)

Lemma wf_bounds : forall n, wf_node n ->
  1 <= first n <= last n /\ last n <= MAXV /\
  1 <= covered n <= last n - first n + 1.
Proof.
  fix IH 1. intros [f l c d [lc|] [rc|]] H; simpl in H |- *; try contradiction.
  - destruct H as (Hl & Hr & -> & -> & -> & Hlt).
    pose proof (IH lc Hl). pose proof (IH rc Hr). lia.
  - lia.
Qed.

Lemma wf_shape : forall n, wf_node n -> shape_ok n.
Proof.
  fix IH 1. intros [f l c d [lc|] [rc|]] H; simpl in H |- *; try contradiction.
  - destruct H as (Hl & Hr & ? & ? & ? & ?). repeat split; auto.
  - lia.
Qed.

Lemma u64_id x : 0 <= x <= MAXV + 1 -> u64 x = x.
Proof. intros. apply u64_small. unfold MAXV in *. lia. Qed.

Lemma adjust_wf n : wf_node n -> insert_adjust n = n.
Proof.
  destruct n as [f l c d [lc|] [rc|]]; simpl; intros H; try contradiction.
  - destruct H as (Hl & Hr & -> & -> & -> & Hlt).
    pose proof (wf_bounds lc Hl). pose proof (wf_bounds rc Hr).
    rewrite u64_id by lia. reflexivity.
  - destruct H as (? & ? & ->). rewrite (u64_id (l - f)), u64_id by lia.
    reflexivity.
Qed.

Lemma destroy_ok : forall n s, exists s',
  destroy n s = Some (tt, s') /\ proven s' = proven s.
Proof.
  fix IH 1. intros [f l c d ol or] s. simpl. unfold bind.
  assert (Hc : forall o s0, exists s1,
    (match o with Some c => destroy c | None => ret tt end) s0 = Some (tt, s1)
    /\ proven s1 = proven s0).
  { intros [c'|] s0; [apply IH | exists s0; split; reflexivity]. }
  destruct (Hc ol s) as (s1 & -> & P1).
  destruct (Hc or s1) as (s2 & -> & P2).
  eexists; split; [reflexivity|]. simpl. congruence.
Qed.

Lemma if_ltb_min a b : (if a <? b then a else b) = Z.min a b.
Proof. destruct (Z.ltb_spec a b); lia. Qed.

Lemma if_ltb_max a b : (if a <? b then b else a) = Z.max a b.
Proof. destruct (Z.ltb_spec a b); lia. Qed.

Lemma create_run p d f l s :
  create p d f l s =
  Some (mknode f l (u64 (u64 (l - f) + 1)) d None None,
        mktstate (if f =? 1 then Some p else proven s)
                 (u32 (u32 (nodes s + 1) + 1))
                 (if u32 (u32 (nodes s + 1) + 1) >? maxnodes s
                  then u32 (u32 (nodes s + 1) + 1) else maxnodes s)
                 (if d >? maxdepth s then d else maxdepth s)).
Proof. reflexivity. Qed.

Lemma leaf_ok p n f l s : ins_pre p n f l s -> LEAF_NODE n = true ->
  ins_post p n f l s (insert_into_leaf p n f l s).
Proof.
  destruct n as [nf nl nc nd [lc|] [rc|]]; simpl LEAF_NODE; intros Hpre HL;
    try discriminate.
  destruct Hpre as (Hwf & Hfl & Hl & Hor & Hpv). simpl in Hwf, Hor, Hpv.
  destruct Hwf as (Hb & Hm & ->).
  unfold insert_into_leaf. rewrite (u64_id (nl + 1)), (u64_id (nf - 1)) by lia.
  unfold ins_post; simpl first; simpl last.
  destruct ((nf <=? f) && (l <=? nl)) eqn:Esub.
  { apply andb_true_iff in Esub as [E1 E2].
    apply Z.leb_le in E1. apply Z.leb_le in E2.
    exists true, (mknode nf nl (nl - nf + 1) nd None None), s. unfold ret.
    split; [reflexivity|]. simpl. repeat split; try lia; auto. }
  destruct ((f <=? nl + 1) && (nf - 1 <=? l)) eqn:Eov.
  - rewrite (if_ltb_min f nf), (if_ltb_max nl l).
    rewrite (u64_id (Z.max nl l - Z.min f nf)), (u64_id (_ + 1)) by lia.
    apply andb_true_iff in Eov as [E1 E2].
    apply Z.leb_le in E1. apply Z.leb_le in E2.
    destruct (Z.eqb_spec (Z.min f nf) 1); unfold bind, set_proven, ret;
      eexists _, _, _; split; try reflexivity; simpl;
      repeat split; try lia; try discriminate; intros; simpl.
    rewrite app_nil_r. reflexivity.
  - apply andb_false_iff in Eov.
    destruct (Z.ltb_spec l (nf - 1)).
    + unfold bind. rewrite create_run. cbn beta iota zeta.
      rewrite create_run. cbn beta iota zeta. unfold ret.
      cbn [first last covered].
      rewrite (u64_id (l - f)), (u64_id (l - f + 1)), (u64_id (nl - nf)),
        (u64_id (nl - nf + 1)), u64_id by lia.
      eexists _, _, _; split; [reflexivity|]. cbn [first last covered proven].
      simpl wf_node. simpl leftmost.
      repeat split; try lia; try discriminate; intros;
        destruct (Z.eqb_spec f 1), (Z.eqb_spec nf 1); try lia;
        try rewrite app_nil_r; reflexivity.
    + destruct (Z.ltb_spec (nl + 1) f); [|lia].
      unfold bind. rewrite create_run. cbn beta iota zeta.
      rewrite create_run. cbn beta iota zeta. unfold ret.
      cbn [first last covered].
      rewrite (u64_id (l - f)), (u64_id (l - f + 1)), (u64_id (nl - nf)),
        (u64_id (nl - nf + 1)), u64_id by lia.
      eexists _, _, _; split; [reflexivity|]. cbn [first last covered proven].
      simpl wf_node. simpl leftmost.
      repeat split; try lia; try discriminate; intros;
        destruct (Z.eqb_spec f 1), (Z.eqb_spec nf 1); try lia;
        try rewrite app_nil_r; reflexivity.
Qed.

Lemma desc_left_ok p nf nl nc nd lc rc (insL : M (bool * node)) f l s :
  ins_pre p (mknode nf nl nc nd (Some lc) (Some rc)) f l s ->
  l < first rc - 1 ->
  (forall s0, ins_pre (p ++ [false]) lc f l s0 ->
              ins_post (p ++ [false]) lc f l s0 (insL s0)) ->
  ins_post p (mknode nf nl nc nd (Some lc) (Some rc)) f l s
    (('(found, n') <-
        ('(found, lc') <- insL ;;
         ret (found, mknode nf nl nc nd (Some lc') (Some rc))) ;;
      ret (found, if found then n' else refresh_internal n')) s).
Proof.
  intros Hpre Hlt' HL. destruct Hpre as (Hwf & Hfl & Hl & Hor & Hpv).
  simpl in Hwf, Hor, Hpv. destruct Hwf as (Wl & Wr & -> & -> & -> & Hlt).
  pose proof (wf_bounds lc Wl). pose proof (wf_bounds rc Wr).
  destruct (HL s) as (found & lc' & s' & E & W' & F' & L' & Tf & P1 & P2).
  { repeat split; try assumption; try lia.
    intros Hq. rewrite <- app_assoc. apply Hpv. exact Hq. }
  unfold bind, ret. rewrite E. cbn beta iota.
  destruct found.
  - destruct (Tf eq_refl) as [-> ->].
    eexists _, _, _; split; [reflexivity|]. simpl.
    repeat split; try assumption; try lia.
  - cbn [refresh_internal]. pose proof (wf_bounds lc' W').
    rewrite u64_id by lia.
    eexists _, _, _; split; [reflexivity|]. simpl.
    repeat split; try assumption; try lia; try discriminate.
    intros Hq. rewrite P1 by exact Hq. rewrite <- app_assoc. reflexivity.
Qed.

Lemma desc_right_ok p nf nl nc nd lc rc (insR : M (bool * node)) f l s :
  ins_pre p (mknode nf nl nc nd (Some lc) (Some rc)) f l s ->
  last lc + 1 < f ->
  (forall s0, ins_pre (p ++ [true]) rc f l s0 ->
              ins_post (p ++ [true]) rc f l s0 (insR s0)) ->
  ins_post p (mknode nf nl nc nd (Some lc) (Some rc)) f l s
    (('(found, n') <-
        ('(found, rc') <- insR ;;
         ret (found, mknode nf nl nc nd (Some lc) (Some rc'))) ;;
      ret (found, if found then n' else refresh_internal n')) s).
Proof.
  intros Hpre Hlt' HR. destruct Hpre as (Hwf & Hfl & Hl & Hor & Hpv).
  simpl in Hwf, Hor, Hpv. destruct Hwf as (Wl & Wr & -> & -> & -> & Hlt).
  pose proof (wf_bounds lc Wl). pose proof (wf_bounds rc Wr).
  destruct (HR s) as (found & rc' & s' & E & W' & F' & L' & Tf & P1 & P2).
  { repeat split; try assumption; try lia. }
  unfold bind, ret. rewrite E. cbn beta iota.
  destruct found.
  - destruct (Tf eq_refl) as [-> ->].
    eexists _, _, _; split; [reflexivity|]. simpl.
    repeat split; try assumption; try lia.
  - cbn [refresh_internal]. pose proof (wf_bounds rc' W').
    rewrite u64_id by lia.
    eexists _, _, _; split; [reflexivity|]. simpl.
    assert (Hs : proven s' = proven s) by (apply P2; lia).
    repeat split; try assumption; try lia; try discriminate.
    + intros Hq. rewrite Hs. apply Hpv. exact Hq.
    + intros _. exact Hs.
Qed.

Lemma internal_ok p nf nl nc nd lc rc (insL insR : M (bool * node)) f l s :
  ins_pre p (mknode nf nl nc nd (Some lc) (Some rc)) f l s ->
  (forall s0, ins_pre (p ++ [false]) lc f l s0 ->
              ins_post (p ++ [false]) lc f l s0 (insL s0)) ->
  (forall s0, ins_pre (p ++ [true]) rc f l s0 ->
              ins_post (p ++ [true]) rc f l s0 (insR s0)) ->
  ins_post p (mknode nf nl nc nd (Some lc) (Some rc)) f l s
    (insert_into_internal p (mknode nf nl nc nd (Some lc) (Some rc))
                          insL insR f l s).
Proof.
  intros Hpre HL HR. pose proof Hpre as Hpre'.
  destruct Hpre' as (Hwf & Hfl & Hl & Hor & Hpv).
  simpl in Hwf. destruct Hwf as (Wl & Wr & Ef & El & Ec & Hlt).
  pose proof (wf_bounds lc Wl) as Bl. pose proof (wf_bounds rc Wr) as Br.
  unfold insert_into_internal. cbv zeta.
  rewrite (u64_id (last lc + 1)), (u64_id (first rc - 1)) by lia.
  destruct ((f <=? last lc + 1) && (first rc - 1 <=? l)) eqn:Eb.
  - apply andb_true_iff in Eb as [E1 E2].
    apply Z.leb_le in E1. apply Z.leb_le in E2.
    rewrite (if_ltb_min f nf), (if_ltb_max nl l).
    rewrite (u64_id (Z.max nl l - Z.min f nf)), (u64_id (_ + 1)) by lia.
    unfold bind.
    destruct (destroy_ok lc s) as (s1 & D1 & P1). rewrite D1. cbn beta iota.
    destruct (destroy_ok rc s1) as (s2 & D2 & P2). rewrite D2. cbn beta iota.
    simpl in Hor, Hpv |- *.
    destruct (Z.eqb_spec (Z.min f nf) 1); unfold set_proven, ret;
      eexists _, _, _; split; try reflexivity; simpl;
      repeat split; try lia; try discriminate; intros.
    + rewrite app_nil_r. reflexivity.
    + congruence.
  - apply andb_false_iff in Eb.
    destruct ((last lc + 1 <? f) && (l <? first rc - 1)) eqn:Ebt.
    + apply andb_true_iff in Ebt as [E1 E2].
      apply Z.ltb_lt in E1. apply Z.ltb_lt in E2.
      destruct (depth lc <? depth rc).
      * apply desc_left_ok; assumption.
      * apply desc_right_ok; assumption.
    + destruct (Z.ltb_spec l (first rc - 1)).
      * apply desc_left_ok; assumption.
      * destruct (Z.ltb_spec (last lc + 1) f); [|lia].
        apply desc_right_ok; assumption.
Qed.

Lemma asserts_ok n f l : wf_node n -> f <= l -> insert_asserts n f l = true.
Proof.
  intros H Hfl. unfold insert_asserts. rewrite (proj2 (Z.leb_le f l) Hfl).
  destruct n as [nf nl nc nd [lc|] [rc|]]; simpl in H |- *; try contradiction.
  - destruct H as (_ & _ & -> & -> & _). rewrite !Z.eqb_refl. reflexivity.
  - reflexivity.
Qed.

Lemma adjust_post p n f l s (m : M (bool * node)) :
  ins_post p n f l s (m s) ->
  ins_post p n f l s
    (('(found, n') <- m ;; ret (found, if found then n' else insert_adjust n')) s).
Proof.
  intros (found & n' & s' & E & W & F & L & Tf & P1 & P2).
  unfold bind, ret. rewrite E. cbn beta iota.
  exists found, n', s'. destruct found.
  - exact (conj eq_refl (conj W (conj F (conj L (conj Tf (conj P1 P2)))))).
  - rewrite adjust_wf by exact W.
    exact (conj eq_refl (conj W (conj F (conj L (conj Tf (conj P1 P2)))))).
Qed.

Lemma insert_unfold p n f l :
  insert p n f l =
  if negb (insert_asserts n f l) then assert_fail else
  '(found, n') <-
    (if ((f =? l) && ((f =? first n) || (l =? last n))) ||
        (LEAF_NODE n && (f =? first n) && (l =? last n)) then
       ret (true, n)
     else
       match n with
       | mknode _ _ _ _ (Some lc) (Some rc) =>
           insert_into_internal p n (insert (p ++ [false]) lc f l)
                                (insert (p ++ [true]) rc f l) f l
       | _ => insert_into_leaf p n f l
       end) ;;
  ret (found, if found then n' else insert_adjust n').
Proof. destruct n; reflexivity. Qed.

Lemma insert_ok : forall n p f l s,
  ins_pre p n f l s -> ins_post p n f l s (insert p n f l s).
Proof.
  fix IH 1. intros n p f l s Hpre.
  pose proof Hpre as (Hwf & Hfl & Hl & Hor & Hpv).
  pose proof (wf_bounds n Hwf) as Bn.
  rewrite insert_unfold, (asserts_ok n f l Hwf) by lia. cbn [negb].
  apply adjust_post.
  destruct (((f =? l) && ((f =? first n) || (l =? last n))) ||
            (LEAF_NODE n && (f =? first n) && (l =? last n))) eqn:Et.
  - assert (first n <= f /\ l <= last n) as [Hf1 Hl1].
    { apply orb_true_iff in Et as [Et | Et].
      - apply andb_true_iff in Et as [E1 E2]. apply Z.eqb_eq in E1.
        apply orb_true_iff in E2 as [E2 | E2]; apply Z.eqb_eq in E2; lia.
      - apply andb_true_iff in Et as [Et E3]. apply andb_true_iff in Et as [_ E2].
        apply Z.eqb_eq in E2. apply Z.eqb_eq in E3. lia. }
    unfold ret. exists true, n, s. repeat split; auto; lia.
  - destruct n as [nf nl nc nd [lc|] [rc|]]; try (simpl in Hwf; contradiction).
    + apply internal_ok; [exact Hpre | |]; intros s0 H0; apply IH; exact H0.
    + apply leaf_ok; [exact Hpre | reflexivity].
Qed.

Lemma leftmost_leaf : forall n, wf_node n ->
  exists m, node_at n (leftmost n) = Some m /\ first m = first n /\
            LEAF_NODE m = true.
Proof.
  fix IH 1. intros [nf nl nc nd [lc|] [rc|]] H; simpl in H; try contradiction.
  - destruct H as (Wl & _ & -> & _).
    destruct (IH lc Wl) as (m & E & F & L). exists m. simpl. auto.
  - exists (mknode nf nl nc nd None None). simpl. auto.
Qed.

Lemma insert_all_ok : forall rs n s,
  Forall valid_range rs -> wf_node n -> first n = 1 ->
  proven s = Some (leftmost n) ->
  exists n' s', insert_all n rs s = Some (n', s') /\ wf_node n' /\
                first n' = 1 /\ proven s' = Some (leftmost n').
Proof.
  induction rs as [|[f l] rs IHrs]; intros n s Hv Hw H1 Hp.
  - exists n, s. auto.
  - inversion Hv as [|? ? [Hr1 Hr2] Hv']; subst. simpl in Hr1, Hr2.
    destruct (insert_ok n [] f l s) as (found & n' & s' & E & W & F & _ & _ & P & _).
    { repeat split; auto; lia. }
    simpl. unfold bind. rewrite E. cbn beta iota.
    apply IHrs; auto; lia.
Qed.

Lemma seeded_run :
  seeded ts_init = Some (mknode 1 2 2 0 None None, mktstate (Some []) 2 2 0).
Proof. vm_compute. reflexivity. Qed.

(** ** C5: the tree shape *)

(** C5 (counterexample).  Inserting 2^64-1 and then 2^64-2 into the
    seeded tree: [n->last + 1] wraps to 0, so the second value is split
    off to the right of the first one, and the resulting siblings are out
    of order ([left.last + 1 < right.first] fails). *)
Lemma C5_counterexample :
  exists n s,
    after_inserts [(UINTMAX_MOD - 1, UINTMAX_MOD - 1);
                   (UINTMAX_MOD - 2, UINTMAX_MOD - 2)] = Some (n, s) /\
    leaves n = [(1, 2); (UINTMAX_MOD - 1, UINTMAX_MOD - 1);
                (UINTMAX_MOD - 2, UINTMAX_MOD - 2)] /\
    ~ shape_ok n.
Proof.
  eexists _, _. split; [vm_compute; reflexivity|].
  split; [vm_compute; reflexivity|].
  intros H. simpl in H. lia.
Qed.

(** C5 (amended).  For any sequence of inserts of ranges with
    1 <= first <= last <= 2^64 - 2 into the seeded tree, no [assert]
    fires, and afterwards every node satisfies invariants 1-4 (left null
    iff right null; an internal node spans and covers what its children
    do; a leaf covers its whole span; left.last + 1 < right.first); the
    root starts at 1 and [proven] points at the leaf whose first is 1. *)
Theorem C5_tree_invariants (rs : list (Z * Z)) :
  Forall valid_range rs ->
  exists n s, after_inserts rs = Some (n, s) /\ shape_ok n /\
              first n = 1 /\ proven_ok n s.
Proof.
  intros Hv. unfold after_inserts. unfold bind at 1. rewrite seeded_run.
  cbn beta iota.
  destruct (insert_all_ok rs (mknode 1 2 2 0 None None) (mktstate (Some []) 2 2 0))
    as (n' & s' & E & W & F & P); auto.
  - simpl. unfold MAXV, UINTMAX_MOD. lia.
  - exists n', s'. repeat split; auto.
    + apply wf_shape. exact W.
    + destruct (leftmost_leaf n' W) as (m & Em & Fm & Lm).
      exists (leftmost n'), m. repeat split; auto. congruence.
Qed.

Lemma C5_witness :
  Forall valid_range [(4, 4); (8, 8); (5, 10)] /\
  exists n s, after_inserts [(4, 4); (8, 8); (5, 10)] = Some (n, s) /\
              shape_ok n /\ first n = 1 /\ proven_ok n s.
Proof.
  assert (Hv : Forall valid_range [(4, 4); (8, 8); (5, 10)]).
  { repeat constructor; unfold valid_range, MAXV, UINTMAX_MOD; simpl; lia. }
  split; [exact Hv | apply (C5_tree_invariants _ Hv)].
Defined.

(** ** Membership proofs *)

Lemma lookup_out : forall n, wf_node n -> forall x,
  x < first n \/ last n < x -> lookup n x = false.
Proof.
  fix IH 1. intros [nf nl nc nd [lc|] [rc|]] H x Hx; simpl in H, Hx |- *;
    try contradiction.
  - destruct H as (Wl & Wr & -> & -> & _ & Hlt).
    pose proof (wf_bounds lc Wl). pose proof (wf_bounds rc Wr).
    destruct (Z.leb_spec (first lc) x), (Z.leb_spec x (last lc)); try lia;
      destruct (Z.leb_spec (first rc) x), (Z.leb_spec x (last rc)); try lia;
      reflexivity.
  - destruct (Z.leb_spec nf x), (Z.leb_spec x nl); try lia; reflexivity.
Qed.

Lemma lookup_internal nf nl nc nd lc rc x :
  wf_node (mknode nf nl nc nd (Some lc) (Some rc)) ->
  lookup (mknode nf nl nc nd (Some lc) (Some rc)) x = lookup lc x || lookup rc x.
Proof.
  simpl. intros (Wl & Wr & _ & _ & _ & Hlt).
  pose proof (wf_bounds lc Wl). pose proof (wf_bounds rc Wr).
  destruct (Z.leb_spec (first lc) x), (Z.leb_spec x (last lc)); simpl.
  - rewrite (lookup_out rc Wr x) by lia. rewrite orb_false_r. reflexivity.
  - rewrite (lookup_out lc Wl x) by lia. simpl.
    destruct (Z.leb_spec (first rc) x), (Z.leb_spec x (last rc)); simpl;
      try reflexivity; symmetry; apply lookup_out; auto; lia.
  - rewrite (lookup_out lc Wl x) by lia. simpl.
    destruct (Z.leb_spec (first rc) x), (Z.leb_spec x (last rc)); simpl;
      try reflexivity; symmetry; apply lookup_out; auto; lia.
  - rewrite (lookup_out lc Wl x) by lia. simpl.
    destruct (Z.leb_spec (first rc) x), (Z.leb_spec x (last rc)); simpl;
      try reflexivity; symmetry; apply lookup_out; auto; lia.
Qed.

Lemma lookup_ends : forall n, wf_node n ->
  lookup n (first n) = true /\ lookup n (last n) = true.
Proof.
  fix IH 1. intros [nf nl nc nd [lc|] [rc|]] H; try (simpl in H; contradiction).
  - rewrite !lookup_internal by exact H. simpl in H |- *.
    destruct H as (Wl & Wr & -> & -> & _).
    destruct (IH lc Wl) as [-> _]. destruct (IH rc Wr) as [_ ->].
    rewrite orb_true_r. auto.
  - simpl in H |- *. destruct (Z.leb_spec nf nf), (Z.leb_spec nl nl),
      (Z.leb_spec nf nl); simpl; split; try reflexivity; lia.
Qed.

Lemma not_all_cov n f l x :
  f <= x <= l -> lookup n x = false ->
  (false = true <-> forall y, f <= y <= l -> lookup n y = true).
Proof.
  intros Hx Hn. split; [discriminate|]. intros H. rewrite (H x Hx) in Hn.
  discriminate.
Qed.

Ltac zcases :=
  repeat match goal with
         | |- context [?a <=? ?b] => destruct (Z.leb_spec a b)
         | H : context [?a <=? ?b] |- _ => destruct (Z.leb_spec a b)
         end;
  simpl in *; try lia; try discriminate; try reflexivity.

Lemma leaf_mem p n f l s : ins_pre p n f l s -> LEAF_NODE n = true ->
  mem_post n f l (insert_into_leaf p n f l s).
Proof.
  destruct n as [nf nl nc nd [lc|] [rc|]]; simpl LEAF_NODE; intros Hpre HL;
    try discriminate.
  destruct Hpre as (Hwf & Hfl & Hl & Hor & Hpv). simpl in Hwf.
  destruct Hwf as (Hb & Hm & ->).
  unfold insert_into_leaf. rewrite (u64_id (nl + 1)), (u64_id (nf - 1)) by lia.
  destruct ((nf <=? f) && (l <=? nl)) eqn:Esub.
  { apply andb_true_iff in Esub as [E1 E2].
    apply Z.leb_le in E1. apply Z.leb_le in E2.
    unfold ret; simpl mem_post. split; [|split].
    - split; [intros _ x Hx; simpl; zcases | reflexivity].
    - auto.
    - intros x Hx; simpl; zcases. }
  assert (Hx : exists x, f <= x <= l /\ (x < nf \/ nl < x)).
  { apply andb_false_iff in Esub as [E | E]; apply Z.leb_gt in E;
      [exists f | exists l]; lia. }
  destruct Hx as (x0 & Hx0 & Hout).
  assert (Hnot : false = true <-> forall y, f <= y <= l ->
            lookup (mknode nf nl (nl - nf + 1) nd None None) y = true).
  { apply (not_all_cov _ _ _ x0 Hx0). simpl. zcases. }
  destruct ((f <=? nl + 1) && (nf - 1 <=? l)) eqn:Eov.
  - apply andb_true_iff in Eov as [E1 E2].
    apply Z.leb_le in E1. apply Z.leb_le in E2.
    destruct ((if f <? nf then f else nf) =? 1); unfold bind, set_proven, ret;
      simpl mem_post; (split; [exact Hnot|]);
      split; intros y Hy; simpl in *;
      destruct (Z.ltb_spec f nf), (Z.ltb_spec nl l); zcases.
  - apply andb_false_iff in Eov.
    destruct (Z.ltb_spec l (nf - 1)).
    + unfold bind. rewrite create_run. cbn beta iota zeta.
      rewrite create_run. cbn beta iota zeta. unfold ret.
      simpl mem_post. split; [exact Hnot|].
      split; intros y Hy; simpl in *; zcases.
    + destruct (Z.ltb_spec (nl + 1) f); [|lia].
      unfold bind. rewrite create_run. cbn beta iota zeta.
      rewrite create_run. cbn beta iota zeta. unfold ret.
      simpl mem_post. split; [exact Hnot|].
      split; intros y Hy; simpl in *; zcases.
Qed.

Lemma lookup_children a b c d lc rc x :
  wf_node lc -> wf_node rc -> last lc < first rc ->
  lookup (mknode a b c d (Some lc) (Some rc)) x = lookup lc x || lookup rc x.
Proof.
  intros Wl Wr Hlt. simpl.
  pose proof (wf_bounds lc Wl). pose proof (wf_bounds rc Wr).
  destruct (Z.leb_spec (first lc) x), (Z.leb_spec x (last lc)); simpl;
    [rewrite (lookup_out rc Wr x) by lia; rewrite orb_false_r; reflexivity
    | rewrite (lookup_out lc Wl x) by lia .. ];
    simpl; destruct (Z.leb_spec (first rc) x), (Z.leb_spec x (last rc)); simpl;
      try reflexivity; symmetry; apply lookup_out; auto; lia.
Qed.

Lemma lookup_in n x : wf_node n -> lookup n x = true -> first n <= x <= last n.
Proof.
  intros W H. destruct (Z.leb_spec (first n) x), (Z.leb_spec x (last n));
    try lia; rewrite lookup_out in H by (auto; lia); discriminate.
Qed.

Lemma desc_left_mem p nf nl nc nd lc rc (insL : M (bool * node)) f l s :
  ins_pre p (mknode nf nl nc nd (Some lc) (Some rc)) f l s ->
  l < first rc - 1 ->
  (forall s0, ins_pre (p ++ [false]) lc f l s0 ->
     mem_post lc f l (insL s0) /\ ins_post (p ++ [false]) lc f l s0 (insL s0)) ->
  mem_post (mknode nf nl nc nd (Some lc) (Some rc)) f l
    (('(found, n') <-
        ('(found, lc') <- insL ;;
         ret (found, mknode nf nl nc nd (Some lc') (Some rc))) ;;
      ret (found, if found then n' else refresh_internal n')) s).
Proof.
  intros Hpre Hlt' HL. pose proof Hpre as (Hwf & Hfl & Hl & Hor & Hpv).
  pose proof Hwf as Hwf'. simpl in Hwf', Hor, Hpv.
  destruct Hwf' as (Wl & Wr & Ef & El & Ec & Hlt).
  pose proof (wf_bounds lc Wl). pose proof (wf_bounds rc Wr).
  destruct (HL s) as [Hm (found & lc' & s' & E & W' & F' & L' & Tf & _)].
  { repeat split; try assumption; try lia.
    intros Hq. rewrite <- app_assoc. apply Hpv. lia. }
  rewrite E in Hm. simpl in Hm. destruct Hm as (Hiff & Hmono & Hincl).
  assert (Hcov : forall found0, (found0 = true <-> forall x, f <= x <= l -> lookup lc x = true) ->
            (found0 = true <-> forall x, f <= x <= l ->
               lookup (mknode nf nl nc nd (Some lc) (Some rc)) x = true)).
  { intros found0 Hi. rewrite Hi. split; intros H1 x Hx; specialize (H1 x Hx);
      rewrite lookup_children in * by (auto; lia);
      [rewrite H1; reflexivity
      | rewrite (lookup_out rc Wr x) in H1 by lia; rewrite orb_false_r in H1; exact H1]. }
  unfold bind, ret. rewrite E. cbn beta iota. simpl mem_post.
  destruct found.
  - destruct (Tf eq_refl) as [-> _]. split; [apply Hcov; exact Hiff|].
    split; [auto|]. intros x Hx. rewrite lookup_children by (auto; lia).
    rewrite Hincl by exact Hx. reflexivity.
  - cbn [refresh_internal]. pose proof (wf_bounds lc' W').
    split; [apply Hcov; exact Hiff|].
    split; intros x Hx; rewrite !lookup_children in * by (auto; lia).
    + apply orb_true_iff in Hx as [Hx | Hx];
        [rewrite (Hmono x Hx); reflexivity | rewrite Hx; apply orb_true_r].
    + rewrite Hincl by exact Hx. reflexivity.
Qed.

Lemma desc_right_mem p nf nl nc nd lc rc (insR : M (bool * node)) f l s :
  ins_pre p (mknode nf nl nc nd (Some lc) (Some rc)) f l s ->
  last lc + 1 < f ->
  (forall s0, ins_pre (p ++ [true]) rc f l s0 ->
     mem_post rc f l (insR s0) /\ ins_post (p ++ [true]) rc f l s0 (insR s0)) ->
  mem_post (mknode nf nl nc nd (Some lc) (Some rc)) f l
    (('(found, n') <-
        ('(found, rc') <- insR ;;
         ret (found, mknode nf nl nc nd (Some lc) (Some rc'))) ;;
      ret (found, if found then n' else refresh_internal n')) s).
Proof.
  intros Hpre Hlt' HR. pose proof Hpre as (Hwf & Hfl & Hl & Hor & Hpv).
  pose proof Hwf as Hwf'. simpl in Hwf', Hor, Hpv.
  destruct Hwf' as (Wl & Wr & Ef & El & Ec & Hlt).
  pose proof (wf_bounds lc Wl). pose proof (wf_bounds rc Wr).
  destruct (HR s) as [Hm (found & rc' & s' & E & W' & F' & L' & Tf & _)].
  { repeat split; try assumption; try lia. }
  rewrite E in Hm. simpl in Hm. destruct Hm as (Hiff & Hmono & Hincl).
  assert (Hcov : forall found0, (found0 = true <-> forall x, f <= x <= l -> lookup rc x = true) ->
            (found0 = true <-> forall x, f <= x <= l ->
               lookup (mknode nf nl nc nd (Some lc) (Some rc)) x = true)).
  { intros found0 Hi. rewrite Hi. split; intros H1 x Hx; specialize (H1 x Hx);
      rewrite lookup_children in * by (auto; lia);
      [rewrite H1; apply orb_true_r
      | rewrite (lookup_out lc Wl x) in H1 by lia; exact H1]. }
  unfold bind, ret. rewrite E. cbn beta iota. simpl mem_post.
  destruct found.
  - destruct (Tf eq_refl) as [-> _]. split; [apply Hcov; exact Hiff|].
    split; [auto|]. intros x Hx. rewrite lookup_children by (auto; lia).
    rewrite Hincl by exact Hx. apply orb_true_r.
  - cbn [refresh_internal]. pose proof (wf_bounds rc' W').
    split; [apply Hcov; exact Hiff|].
    split; intros x Hx; rewrite !lookup_children in * by (auto; lia).
    + apply orb_true_iff in Hx as [Hx | Hx];
        [rewrite Hx; reflexivity | rewrite (Hmono x Hx); apply orb_true_r].
    + rewrite Hincl by exact Hx. apply orb_true_r.
Qed.

Lemma internal_mem p nf nl nc nd lc rc (insL insR : M (bool * node)) f l s :
  ins_pre p (mknode nf nl nc nd (Some lc) (Some rc)) f l s ->
  (forall s0, ins_pre (p ++ [false]) lc f l s0 ->
     mem_post lc f l (insL s0) /\ ins_post (p ++ [false]) lc f l s0 (insL s0)) ->
  (forall s0, ins_pre (p ++ [true]) rc f l s0 ->
     mem_post rc f l (insR s0) /\ ins_post (p ++ [true]) rc f l s0 (insR s0)) ->
  mem_post (mknode nf nl nc nd (Some lc) (Some rc)) f l
    (insert_into_internal p (mknode nf nl nc nd (Some lc) (Some rc))
                          insL insR f l s).
Proof.
  intros Hpre HL HR. pose proof Hpre as (Hwf & Hfl & Hl & Hor & Hpv).
  pose proof Hwf as Hwf'. simpl in Hwf'.
  destruct Hwf' as (Wl & Wr & Ef & El & Ec & Hlt).
  pose proof (wf_bounds lc Wl) as Bl. pose proof (wf_bounds rc Wr) as Br.
  unfold insert_into_internal. cbv zeta.
  rewrite (u64_id (last lc + 1)), (u64_id (first rc - 1)) by lia.
  destruct ((f <=? last lc + 1) && (first rc - 1 <=? l)) eqn:Eb.
  - apply andb_true_iff in Eb as [E1 E2].
    apply Z.leb_le in E1. apply Z.leb_le in E2.
    assert (Hnot : false = true <-> forall y, f <= y <= l ->
              lookup (mknode nf nl nc nd (Some lc) (Some rc)) y = true).
    { apply (not_all_cov _ _ _ (last lc + 1)); [lia|].
      rewrite lookup_children by (auto; lia).
      rewrite !lookup_out by (auto; lia). reflexivity. }
    unfold bind.
    destruct (destroy_ok lc s) as (s1 & D1 & _). rewrite D1. cbn beta iota.
    destruct (destroy_ok rc s1) as (s2 & D2 & _). rewrite D2. cbn beta iota.
    destruct ((if f <? nf then f else nf) =? 1); unfold set_proven, ret;
      simpl mem_post; (split; [exact Hnot|]);
      (split; [intros y Hy; apply lookup_in in Hy; [|exact Hwf]; simpl in Hy
              | intros y Hy]);
      simpl; destruct (Z.ltb_spec f nf), (Z.ltb_spec nl l); zcases.
  - apply andb_false_iff in Eb.
    destruct ((last lc + 1 <? f) && (l <? first rc - 1)) eqn:Ebt.
    + apply andb_true_iff in Ebt as [E1 E2].
      apply Z.ltb_lt in E1. apply Z.ltb_lt in E2.
      destruct (depth lc <? depth rc).
      * apply (desc_left_mem p); assumption.
      * apply (desc_right_mem p); assumption.
    + destruct (Z.ltb_spec l (first rc - 1)).
      * apply (desc_left_mem p); assumption.
      * destruct (Z.ltb_spec (last lc + 1) f); [|lia].
        apply (desc_right_mem p); assumption.
Qed.

Lemma insert_mem : forall n p f l s,
  ins_pre p n f l s -> mem_post n f l (insert p n f l s).
Proof.
  fix IH 1. intros n p f l s Hpre.
  pose proof Hpre as (Hwf & Hfl & Hl & Hor & Hpv).
  pose proof (wf_bounds n Hwf) as Bn.
  pose proof (insert_ok n p f l s Hpre) as Hok.
  rewrite insert_unfold, (asserts_ok n f l Hwf) in Hok |- * by lia.
  cbn [negb] in Hok |- *.
  destruct (((f =? l) && ((f =? first n) || (l =? last n))) ||
            (LEAF_NODE n && (f =? first n) && (l =? last n))) eqn:Et.
  - assert (LEAF_NODE n = true /\ f = first n /\ l = last n \/
            f = l /\ (f = first n \/ l = last n)) as Hcases.
    { apply orb_true_iff in Et as [Et | Et].
      - apply andb_true_iff in Et as [E1 E2]. apply Z.eqb_eq in E1.
        apply orb_true_iff in E2 as [E2 | E2]; apply Z.eqb_eq in E2; lia.
      - apply andb_true_iff in Et as [Et E3]. apply andb_true_iff in Et as [E1 E2].
        apply Z.eqb_eq in E2. apply Z.eqb_eq in E3. auto. }
    destruct (lookup_ends n Hwf) as [Lf Ll].
    assert (Hall : forall x, f <= x <= l -> lookup n x = true).
    { intros x Hx. destruct Hcases as [(HL & -> & ->) | (-> & [-> | ->])].
      - destruct n as [nf nl nc nd [lc|] [rc|]]; try discriminate HL.
        simpl in Hx |- *. zcases.
      - replace x with (first n) by lia. exact Lf.
      - replace x with (last n) by lia. exact Ll. }
    unfold bind, ret. simpl mem_post. split; [|split; auto].
    split; [auto | reflexivity].
  - destruct n as [nf nl nc nd [lc|] [rc|]]; try (simpl in Hwf; contradiction).
    + pose proof (internal_ok p nf nl nc nd lc rc (insert (p ++ [false]) lc f l)
        (insert (p ++ [true]) rc f l) f l s Hpre
        (fun s1 H1 => insert_ok lc (p ++ [false]) f l s1 H1)
        (fun s1 H1 => insert_ok rc (p ++ [true]) f l s1 H1))
        as (found0 & n0 & s0 & E0 & W0 & _).
      pose proof (internal_mem p nf nl nc nd lc rc (insert (p ++ [false]) lc f l)
        (insert (p ++ [true]) rc f l) f l s Hpre) as Hm.
      rewrite E0 in Hm. simpl in Hm.
      unfold bind, ret. rewrite E0. cbn beta iota. simpl mem_post.
      destruct found0; [|rewrite adjust_wf by exact W0]; apply Hm;
        intros s1 H1; (split; [apply IH; exact H1 | apply insert_ok; exact H1]).
    + pose proof (leaf_ok p (mknode nf nl nc nd None None) f l s Hpre eq_refl)
        as (found0 & n0 & s0 & E0 & W0 & _).
      pose proof (leaf_mem p (mknode nf nl nc nd None None) f l s Hpre eq_refl) as Hm.
      rewrite E0 in Hm. simpl in Hm.
      unfold bind, ret. rewrite E0. cbn beta iota. simpl mem_post.
      destruct found0; [|rewrite adjust_wf by exact W0]; exact Hm.
Qed.

Lemma reachable_ok rs n s :
  Forall valid_range rs -> after_inserts rs = Some (n, s) ->
  wf_node n /\ first n = 1 /\ proven s = Some (leftmost n).
Proof.
  intros Hv E. unfold after_inserts in E. unfold bind at 1 in E.
  rewrite seeded_run in E. cbn beta iota in E.
  destruct (insert_all_ok rs (mknode 1 2 2 0 None None) (mktstate (Some []) 2 2 0))
    as (n' & s' & E' & W & F & P); auto.
  - simpl. unfold MAXV, UINTMAX_MOD. lia.
  - rewrite E' in E. injection E as <- <-. auto.
Qed.

Lemma reachable_pre rs n s f l :
  Forall valid_range rs -> after_inserts rs = Some (n, s) ->
  valid_range (f, l) -> ins_pre [] n f l s.
Proof.
  intros Hv E [Hr1 Hr2]. simpl in Hr1, Hr2.
  destruct (reachable_ok rs n s Hv E) as (W & F & P).
  repeat split; auto; lia.
Qed.

(** [insert] reports exactly whether the range was already in the
    tree.  For a tree built by valid inserts from the seeded root, and a
    range [f, l] with 1 <= f <= l <= 2^64 - 2, [insert(root, f, l)] does
    not fail and returns true iff [lookup] is true on every value of
    [f, l]. *)
Theorem insert_found_iff_covered (rs : list (Z * Z)) (n : node) (s : tstate) (f l : Z) :
  Forall valid_range rs -> after_inserts rs = Some (n, s) -> valid_range (f, l) ->
  exists found n' s', insert [] n f l s = Some ((found, n'), s') /\
    (found = true <-> forall x, f <= x <= l -> lookup n x = true).
Proof.
  intros Hv E Hr. pose proof (reachable_pre rs n s f l Hv E Hr) as Hpre.
  destruct (insert_ok n [] f l s Hpre) as (found & n' & s' & E' & _).
  pose proof (insert_mem n [] f l s Hpre) as Hm. rewrite E' in Hm.
  exists found, n', s'. split; [exact E'|]. apply Hm.
Qed.

(** [insert] never loses a value and always adds its range: after
    [insert(root, f, l)] on a tree built by valid inserts, every value
    [lookup] found before is still found, and so is every value of
    [f, l]. *)
Theorem insert_keeps_and_adds (rs : list (Z * Z)) (n : node) (s : tstate) (f l : Z) :
  Forall valid_range rs -> after_inserts rs = Some (n, s) -> valid_range (f, l) ->
  exists found n' s', insert [] n f l s = Some ((found, n'), s') /\
    (forall x, lookup n x = true -> lookup n' x = true) /\
    (forall x, f <= x <= l -> lookup n' x = true).
Proof.
  intros Hv E Hr. pose proof (reachable_pre rs n s f l Hv E Hr) as Hpre.
  destruct (insert_ok n [] f l s Hpre) as (found & n' & s' & E' & _).
  pose proof (insert_mem n [] f l s Hpre) as Hm. rewrite E' in Hm.
  exists found, n', s'. split; [exact E'|]. apply Hm.
Qed.

(** Inserting the same range twice.  On a tree built by valid
    inserts, the second [insert(root, f, l)] returns true and leaves the
    tree and the globals ([proven], [nodes], ...) unchanged. *)
Theorem insert_twice (rs : list (Z * Z)) (n : node) (s : tstate) (f l : Z) :
  Forall valid_range rs -> after_inserts rs = Some (n, s) -> valid_range (f, l) ->
  exists found n' s', insert [] n f l s = Some ((found, n'), s') /\
    insert [] n' f l s' = Some ((true, n'), s').
Proof.
  intros Hv E Hr. pose proof (reachable_pre rs n s f l Hv E Hr) as Hpre.
  destruct (insert_ok n [] f l s Hpre)
    as (found & n' & s' & E' & W' & F' & L' & Tf & P1 & P2).
  pose proof (insert_mem n [] f l s Hpre) as Hm. rewrite E' in Hm.
  destruct Hm as (_ & _ & Hincl).
  exists found, n', s'. split; [exact E'|].
  pose proof Hpre as (W & Hfl & Hl & Hor & Hpv).
  assert (Hpre' : ins_pre [] n' f l s').
  { repeat split; auto; try lia. intros H1. apply P1. lia. }
  destruct (insert_ok n' [] f l s' Hpre')
    as (found2 & n2 & s2 & E2 & _ & _ & _ & Tf2 & _).
  pose proof (insert_mem n' [] f l s' Hpre') as Hm2. rewrite E2 in Hm2.
  destruct Hm2 as (Hiff2 & _).
  assert (found2 = true) as -> by (apply Hiff2; exact Hincl).
  destruct (Tf2 eq_refl) as [-> ->]. exact E2.
Qed.

Lemma insert_found_iff_covered_witness :
  exists n s, after_inserts [(4, 4); (10, 12)] = Some (n, s) /\
  exists found n' s', insert [] n 8 11 s = Some ((found, n'), s') /\
    (found = true <-> forall x, 8 <= x <= 11 -> lookup n x = true).
Proof.
  assert (Hv : Forall valid_range [(4, 4); (10, 12)]).
  { repeat constructor; unfold valid_range, MAXV, UINTMAX_MOD; simpl; lia. }
  assert (Hr : valid_range (8, 11)).
  { unfold valid_range, MAXV, UINTMAX_MOD; simpl; lia. }
  destruct (after_inserts [(4, 4); (10, 12)]) as [[n s]|] eqn:E;
    [|vm_compute in E; discriminate].
  exists n, s. split; [reflexivity|].
  exact (insert_found_iff_covered _ n s 8 11 Hv E Hr).
Defined.

Lemma insert_keeps_and_adds_witness :
  exists n s, after_inserts [(4, 4); (10, 12)] = Some (n, s) /\
  exists found n' s', insert [] n 8 11 s = Some ((found, n'), s') /\
    (forall x, lookup n x = true -> lookup n' x = true) /\
    (forall x, 8 <= x <= 11 -> lookup n' x = true).
Proof.
  assert (Hv : Forall valid_range [(4, 4); (10, 12)]).
  { repeat constructor; unfold valid_range, MAXV, UINTMAX_MOD; simpl; lia. }
  assert (Hr : valid_range (8, 11)).
  { unfold valid_range, MAXV, UINTMAX_MOD; simpl; lia. }
  destruct (after_inserts [(4, 4); (10, 12)]) as [[n s]|] eqn:E;
    [|vm_compute in E; discriminate].
  exists n, s. split; [reflexivity|].
  exact (insert_keeps_and_adds _ n s 8 11 Hv E Hr).
Defined.

Lemma insert_twice_witness :
  exists n s, after_inserts [(4, 4); (10, 12)] = Some (n, s) /\
  exists found n' s', insert [] n 8 11 s = Some ((found, n'), s') /\
    insert [] n' 8 11 s' = Some ((true, n'), s').
Proof.
  assert (Hv : Forall valid_range [(4, 4); (10, 12)]).
  { repeat constructor; unfold valid_range, MAXV, UINTMAX_MOD; simpl; lia. }
  assert (Hr : valid_range (8, 11)).
  { unfold valid_range, MAXV, UINTMAX_MOD; simpl; lia. }
  destruct (after_inserts [(4, 4); (10, 12)]) as [[n s]|] eqn:E;
    [|vm_compute in E; discriminate].
  exists n, s. split; [reflexivity|].
  exact (insert_twice _ n s 8 11 Hv E Hr).
Defined.

(** ** The printed ranges *)

Lemma leaves_ranges : forall n, wf_node n -> forall lo tail,
  lo < first n -> ranges_ok (last n + 1) tail -> ranges_ok lo (leaves n ++ tail).
Proof.
  fix IH 1. intros [nf nl nc nd [lc|] [rc|]] H lo tail Hlo Ht;
    simpl in H, Hlo, Ht |- *; try contradiction.
  - destruct H as (Wl & Wr & -> & -> & _ & Hlt).
    rewrite <- app_assoc. apply (IH lc Wl); [lia|].
    apply (IH rc Wr); [lia | exact Ht].
  - split; [lia | exact Ht].
Qed.

Lemma width_sum_app a b : width_sum (a ++ b) = width_sum a + width_sum b.
Proof.
  induction a as [|r a IH]; simpl; [reflexivity|].
  unfold width_sum in *. simpl. rewrite IH. lia.
Qed.

Lemma leaves_width : forall n, wf_node n -> width_sum (leaves n) = covered n.
Proof.
  fix IH 1. intros [nf nl nc nd [lc|] [rc|]] H; simpl in H |- *; try contradiction.
  - destruct H as (Wl & Wr & _ & _ & -> & _).
    rewrite width_sum_app, (IH lc Wl), (IH rc Wr). reflexivity.
  - destruct H as (_ & _ & ->). unfold width_sum. simpl. lia.
Qed.

Lemma in_list_app x a b : in_list x (a ++ b) = in_list x a || in_list x b.
Proof. unfold in_list. apply existsb_app. Qed.

Lemma lookup_leaves : forall n, wf_node n -> forall x,
  lookup n x = in_list x (leaves n).
Proof.
  fix IH 1. intros [nf nl nc nd [lc|] [rc|]] H x; try (simpl in H; contradiction).
  - rewrite lookup_internal by exact H. simpl in H |- *.
    destruct H as (Wl & Wr & _).
    rewrite in_list_app, (IH lc Wl), (IH rc Wr). reflexivity.
  - unfold in_list. simpl. rewrite orb_false_r. reflexivity.
Qed.

Lemma leaves_first : forall n, wf_node n ->
  exists b rest, leaves n = (first n, b) :: rest.
Proof.
  fix IH 1. intros [nf nl nc nd [lc|] [rc|]] H; simpl in H |- *; try contradiction.
  - destruct H as (Wl & _ & -> & _).
    destruct (IH lc Wl) as (b & rest & ->). exists b, (rest ++ leaves rc).
    reflexivity.
  - exists nl, []. reflexivity.
Qed.

Lemma leaves_last : forall n, wf_node n ->
  exists a init, leaves n = init ++ [(a, last n)].
Proof.
  fix IH 1. intros [nf nl nc nd [lc|] [rc|]] H; simpl in H |- *; try contradiction.
  - destruct H as (_ & Wr & _ & -> & _).
    destruct (IH rc Wr) as (a & init & ->). exists a, (leaves lc ++ init).
    rewrite app_assoc. reflexivity.
  - exists nf, []. reflexivity.
Qed.

(** [lookup] agrees with the ranges [fprintnodes] prints.  On a
    tree built by valid inserts from the seeded root, [lookup(root, x)]
    is true iff [x] lies in one of the leaf ranges. *)
Theorem lookup_matches_printed (rs : list (Z * Z)) (n : node) (s : tstate) (x : Z) :
  Forall valid_range rs -> after_inserts rs = Some (n, s) ->
  lookup n x = in_list x (leaves n).
Proof.
  intros Hv E. destruct (reachable_ok rs n s Hv E) as (W & _).
  apply lookup_leaves. exact W.
Qed.

(** What [fprintnodes] prints.  On a tree built by valid inserts,
    the leaf ranges come in increasing order, each non-empty and starting
    more than one past the end of the previous one; the first starts at
    1, the last ends at [root->last], and their widths add up to
    [root->covered]. *)
Theorem printed_ranges_ordered (rs : list (Z * Z)) (n : node) (s : tstate) :
  Forall valid_range rs -> after_inserts rs = Some (n, s) ->
  ranges_ok 0 (leaves n) /\
  (exists b rest, leaves n = (1, b) :: rest) /\
  (exists a init, leaves n = init ++ [(a, last n)]) /\
  width_sum (leaves n) = covered n.
Proof.
  intros Hv E. destruct (reachable_ok rs n s Hv E) as (W & F & _).
  split; [|split; [|split]].
  - rewrite <- (app_nil_r (leaves n)). apply leaves_ranges; auto; [lia | exact I].
  - rewrite <- F. apply leaves_first. exact W.
  - apply leaves_last. exact W.
  - apply leaves_width. exact W.
Qed.

Lemma lookup_matches_printed_witness :
  exists n s, after_inserts [(4, 4); (10, 12); (7, 7)] = Some (n, s) /\
  lookup n 7 = in_list 7 (leaves n).
Proof.
  assert (Hv : Forall valid_range [(4, 4); (10, 12); (7, 7)]).
  { repeat constructor; unfold valid_range, MAXV, UINTMAX_MOD; simpl; lia. }
  destruct (after_inserts [(4, 4); (10, 12); (7, 7)]) as [[n s]|] eqn:E;
    [|vm_compute in E; discriminate].
  exists n, s. split; [reflexivity|].
  exact (lookup_matches_printed _ n s 7 Hv E).
Defined.

Lemma printed_ranges_ordered_witness :
  exists n s, after_inserts [(4, 4); (10, 12); (7, 7)] = Some (n, s) /\
  ranges_ok 0 (leaves n) /\
  (exists b rest, leaves n = (1, b) :: rest) /\
  (exists a init, leaves n = init ++ [(a, last n)]) /\
  width_sum (leaves n) = covered n.
Proof.
  assert (Hv : Forall valid_range [(4, 4); (10, 12); (7, 7)]).
  { repeat constructor; unfold valid_range, MAXV, UINTMAX_MOD; simpl; lia. }
  destruct (after_inserts [(4, 4); (10, 12); (7, 7)]) as [[n s]|] eqn:E;
    [|vm_compute in E; discriminate].
  exists n, s. split; [reflexivity|].
  exact (printed_ranges_ordered _ n s Hv E).
Defined.
(** ** Statistics *)

Lemma u32_sub2 a b c : u32 (u32 (a - b) - c) = u32 (a - (b + c)).
Proof.
  unfold u32. rewrite Zminus_mod_idemp_l. f_equal. lia.
Qed.

(** [destroy(n)] frees the whole subtree: it decrements [nodes]
    once per node of [n] (modulo 2^32, as [unsigned int]) and changes no
    other global. *)
Theorem destroy_decrements_nodes : forall n s,
  destroy n s = Some (tt, mktstate (proven s) (u32 (nodes s - count_nodes n))
                                   (maxnodes s) (maxdepth s)).
Proof.
  fix IH 1. intros [nf nl nc nd ol or] s.
  assert (Hcount : count_nodes (mknode nf nl nc nd ol or) =
    1 + match ol with Some c => count_nodes c | None => 0 end
      + match or with Some c => count_nodes c | None => 0 end) by reflexivity.
  rewrite Hcount. cbn [destroy]. unfold bind, ret.
  destruct ol as [lc|], or as [rc|];
    [rewrite (IH lc s); cbn beta iota; rewrite (IH rc) | rewrite (IH lc s)
    | rewrite (IH rc s) | ];
    cbn beta iota; cbn [proven nodes maxnodes maxdepth];
    rewrite ?u32_sub2; do 4 f_equal; lia.
Qed.

Lemma u32_small_id x : 0 <= x < UINT_MOD -> u32 x = x.
Proof. intros. unfold u32. apply Z.mod_small. exact H. Qed.

(** The [WORKQUEUE_DEPTH] macro shown by [progress] is the number
    of pending entries, except for a full queue, where it reads 0. *)
Theorem workqueue_depth_macro (q : qstate) :
  q_wf WORKQUEUE_SIZE q ->
  (q_depth WORKQUEUE_SIZE q < WORKQUEUE_SIZE ->
   WORKQUEUE_DEPTH q = q_depth WORKQUEUE_SIZE q) /\
  (q_depth WORKQUEUE_SIZE q = WORKQUEUE_SIZE -> WORKQUEUE_DEPTH q = 0).
Proof.
  intros (Hr & Hw & _). unfold WORKQUEUE_DEPTH, q_depth.
  assert (HS : 0 < WORKQUEUE_SIZE) by (unfold WORKQUEUE_SIZE; lia).
  rewrite (u32_small_id (qw q + WORKQUEUE_SIZE - qr q))
    by (unfold UINT_MOD, WORKQUEUE_SIZE in *; lia).
  destruct (Z.eqb_spec (qr q) (qw q)) as [E|E].
  - rewrite E. replace (qw q + WORKQUEUE_SIZE - qw q) with WORKQUEUE_SIZE by lia.
    rewrite Z_mod_same_full.
    destruct (queue q (qw q) =? 0); split; intros; lia.
  - replace (qw q + WORKQUEUE_SIZE - qr q) with ((qw q - qr q) + 1 * WORKQUEUE_SIZE)
      by lia.
    rewrite Z_mod_plus_full.
    pose proof (Z.mod_pos_bound (qw q - qr q) WORKQUEUE_SIZE HS). split; intros; lia.
Qed.

Lemma workqueue_depth_macro_witness :
  (q_wf WORKQUEUE_SIZE (mkqstate (fun _ => 1) 5 5) /\
   q_depth WORKQUEUE_SIZE (mkqstate (fun _ => 1) 5 5) = WORKQUEUE_SIZE /\
   WORKQUEUE_DEPTH (mkqstate (fun _ => 1) 5 5) = 0) /\
  (q_wf WORKQUEUE_SIZE (mkqstate (fun j => if (3 <=? j) && (j <? 7) then 9 else 0) 3 7) /\
   q_depth WORKQUEUE_SIZE (mkqstate (fun j => if (3 <=? j) && (j <? 7) then 9 else 0) 3 7) = 4 /\
   WORKQUEUE_DEPTH (mkqstate (fun j => if (3 <=? j) && (j <? 7) then 9 else 0) 3 7) = 4).
Proof.
  assert (HS : WORKQUEUE_SIZE = 2 ^ 20) by reflexivity.
  assert (Wf : q_wf WORKQUEUE_SIZE (mkqstate (fun _ => 1) 5 5)).
  { split; [simpl; lia|]. split; [simpl; lia|].
    intros i Hi. unfold q_depth. simpl. split; [intros _; lia | intros _; lia]. }
  assert (Df : q_depth WORKQUEUE_SIZE (mkqstate (fun _ => 1) 5 5) = WORKQUEUE_SIZE)
    by reflexivity.
  assert (Wp : q_wf WORKQUEUE_SIZE
                 (mkqstate (fun j => if (3 <=? j) && (j <? 7) then 9 else 0) 3 7)).
  { split; [simpl; lia|]. split; [simpl; lia|].
    intros i Hi.
    replace (q_depth WORKQUEUE_SIZE
               (mkqstate (fun j => if (3 <=? j) && (j <? 7) then 9 else 0) 3 7)) with 4
      by reflexivity.
    cbn [queue qr].
    destruct (Z.ltb_spec (3 + i) WORKQUEUE_SIZE) as [Hlt|Hge].
    - rewrite Z.mod_small by lia.
      destruct (Z.leb_spec 3 (3 + i)), (Z.ltb_spec (3 + i) 7); simpl; split; intros; lia.
    - assert (Hm : (3 + i) mod WORKQUEUE_SIZE = 3 + i - WORKQUEUE_SIZE).
      { symmetry. apply (Z.mod_unique _ _ 1); lia. }
      rewrite Hm. destruct (Z.leb_spec 3 (3 + i - WORKQUEUE_SIZE)); simpl;
        [lia | split; intros; [congruence | lia]]. }
  assert (Dp : q_depth WORKQUEUE_SIZE
                 (mkqstate (fun j => if (3 <=? j) && (j <? 7) then 9 else 0) 3 7) = 4)
    by reflexivity.
  split.
  - split; [exact Wf|]. split; [exact Df|].
    exact (proj2 (workqueue_depth_macro _ Wf) Df).
  - split; [exact Wp|]. split; [exact Dp|].
    rewrite <- Dp.
    apply (proj1 (workqueue_depth_macro _ Wp)). rewrite Dp, HS. lia.
Defined.

Lemma covered_span n : wf_node n ->
  (LEAF_NODE n = true -> covered n = last n - first n + 1) /\
  (LEAF_NODE n = false -> covered n < last n - first n + 1).
Proof.
  destruct n as [nf nl nc nd [lc|] [rc|]]; simpl; intros H; try contradiction.
  - destruct H as (Wl & Wr & -> & -> & -> & Hlt).
    pose proof (wf_bounds lc Wl). pose proof (wf_bounds rc Wr).
    split; [discriminate | intros _; lia].
  - destruct H as (_ & _ & ->). split; [reflexivity | discriminate].
Qed.

(** The percentage [progress] shows.  On a tree built by valid
    inserts whose span is small enough that [root->covered * 100] does
    not wrap ([100 * root->last < 2^64]), the value is at most 100, and
    it is exactly 100 iff the root is a leaf (no gap left in [1, last]). *)
Theorem progress_pct_bounded (rs : list (Z * Z)) (n : node) (s : tstate) :
  Forall valid_range rs -> after_inserts rs = Some (n, s) ->
  100 * last n < UINTMAX_MOD ->
  progress_pct n <= 100 /\ (progress_pct n = 100 <-> LEAF_NODE n = true).
Proof.
  intros Hv E Hb. destruct (reachable_ok rs n s Hv E) as (W & F & _).
  pose proof (wf_bounds n W) as Bn. destruct (covered_span n W) as [CL CI].
  unfold progress_pct.
  rewrite (u64_small (covered n * 100)), (u64_small (last n - first n + 1))
    by (unfold MAXV in *; lia).
  assert (Hs : 0 < last n - first n + 1) by lia.
  split.
  - apply Z.div_le_upper_bound; lia.
  - destruct (LEAF_NODE n).
    + rewrite (CL eq_refl), Z.mul_comm, Z.div_mul by lia. tauto.
    + specialize (CI eq_refl).
      assert (covered n * 100 / (last n - first n + 1) < 100)
        by (apply Z.div_lt_upper_bound; lia).
      split; [lia | discriminate].
Qed.

Lemma progress_pct_bounded_witness :
  exists n s, after_inserts [(4, 4); (10, 12)] = Some (n, s) /\
  100 * last n < UINTMAX_MOD /\
  progress_pct n <= 100 /\ (progress_pct n = 100 <-> LEAF_NODE n = true).
Proof.
  assert (Hv : Forall valid_range [(4, 4); (10, 12)]).
  { repeat constructor; unfold valid_range, MAXV, UINTMAX_MOD; simpl; lia. }
  assert (Hb : omap (fun r => 100 * last (fst r) <? UINTMAX_MOD)
                 (after_inserts [(4, 4); (10, 12)]) = Some true)
    by (vm_compute; reflexivity).
  destruct (after_inserts [(4, 4); (10, 12)]) as [[n s]|] eqn:E;
    [|discriminate Hb].
  simpl in Hb. injection Hb as Hb. apply Z.ltb_lt in Hb.
  exists n, s. split; [reflexivity|]. split; [exact Hb|].
  exact (progress_pct_bounded _ n s Hv E Hb).
Defined.

Lemma mod_succ_eqb (j c : Z) :
  0 <= j -> 0 <= c <= PROGRESS_INTERVAL ->
  ((j + 1) mod (PROGRESS_INTERVAL + 1) =? c) =
  (j mod (PROGRESS_INTERVAL + 1) =? (if c =? 0 then PROGRESS_INTERVAL else c - 1)).
Proof.
  unfold PROGRESS_INTERVAL. intros Hj Hc.
  rewrite <- Zplus_mod_idemp_l.
  pose proof (Z.mod_pos_bound j (2 ^ 10 + 1)) as Hr.
  set (r := j mod (2 ^ 10 + 1)) in *.
  assert (Hr' : 0 <= r < 2 ^ 10 + 1) by (apply Hr; lia).
  destruct (Z.eqb_spec r (2 ^ 10)) as [Er|Er].
  - rewrite Er. replace (2 ^ 10 + 1) with (1 * (2 ^ 10 + 1)) at 1 by lia.
    rewrite Z_mod_same_full.
    destruct (Z.eqb_spec c 0), (Z.eqb_spec 0 c), (Z.eqb_spec (2 ^ 10) (c - 1));
      reflexivity || lia.
  - rewrite Z.mod_small by lia.
    destruct (Z.eqb_spec c 0) as [->|Hc0].
    + destruct (Z.eqb_spec (r + 1) 0), (Z.eqb_spec r (2 ^ 10)); reflexivity || lia.
    + destruct (Z.eqb_spec (r + 1) c), (Z.eqb_spec r (c - 1)); reflexivity || lia.
Qed.

(** How often [progress(false)] writes on a terminal.  Starting
    from a [count] in [0, PROGRESS_INTERVAL] (it starts at 0), call [i]
    of a run of calls writes iff [i mod (PROGRESS_INTERVAL + 1) = count]:
    the line is refreshed every 1025 calls, not every 1024. *)
Theorem progress_write_period (k : nat) (c : Z) (i : nat) :
  0 <= c <= PROGRESS_INTERVAL -> (i < k)%nat ->
  nth i (progress_calls k c) false =
  (Z.of_nat i mod (PROGRESS_INTERVAL + 1) =? c).
Proof.
  revert k c. induction i as [|i IH]; intros k c Hc Hk;
    (destruct k as [|k]; [lia|]); cbn [progress_calls].
  - unfold progress_tick. destruct (Z.eqb_spec c 0) as [->|Hc0]; simpl.
    + reflexivity.
    + destruct c; [lia | reflexivity | reflexivity].
  - unfold progress_tick. cbv zeta.
    replace (Z.of_nat (Datatypes.S i)) with (Z.of_nat i + 1) by lia.
    rewrite (mod_succ_eqb (Z.of_nat i) c) by lia.
    destruct (Z.eqb_spec c 0) as [->|Hc0]; cbn [nth].
    + apply IH; [unfold PROGRESS_INTERVAL; lia | lia].
    + rewrite (u32_small_id (c - 1))
        by (unfold UINT_MOD, PROGRESS_INTERVAL in *; lia).
      apply IH; lia.
Qed.

Lemma progress_write_period_witness :
  (0 <= 0 <= PROGRESS_INTERVAL /\ (1025 < 2050)%nat) /\
  nth 1025 (progress_calls 2050 0) false =
  (Z.of_nat 1025 mod (PROGRESS_INTERVAL + 1) =? 0).
Proof.
  assert (H1 : 0 <= 0 <= PROGRESS_INTERVAL) by (unfold PROGRESS_INTERVAL; lia).
  assert (H2 : (1025 < 2050)%nat) by lia.
  split; [split; assumption | exact (progress_write_period 2050 0 1025 H1 H2)].
Defined.

(** ** Runs of the explorers *)

Lemma in_zrange a b x : In x (zrange a b) <-> a <= x < b.
Proof.
  unfold zrange. rewrite in_map_iff. split.
  - intros (i & <- & Hi). apply in_seq in Hi. lia.
  - intros Hx. exists (Z.to_nat (x - a)). split; [lia|].
    apply in_seq. lia.
Qed.

Lemma zrange_length a b : length (zrange a b) = Z.to_nat (b - a).
Proof. unfold zrange. rewrite length_map, length_seq. reflexivity. Qed.

Lemma filter_length_mono {A} (P Q : A -> bool) (l : list A) :
  (forall x, In x l -> P x = true -> Q x = true) ->
  (length (filter P l) <= length (filter Q l))%nat.
Proof.
  induction l as [|a l IH]; intros H; simpl; [lia|].
  assert (IH' : (length (filter P l) <= length (filter Q l))%nat)
    by (apply IH; intros x Hx; apply H; right; exact Hx).
  destruct (P a) eqn:Ea.
  - rewrite (H a (or_introl eq_refl) Ea). simpl. lia.
  - destruct (Q a); simpl; lia.
Qed.

Lemma filter_length_strict {A} (P Q : A -> bool) (l : list A) (y : A) :
  (forall x, In x l -> P x = true -> Q x = true) ->
  In y l -> P y = false -> Q y = true ->
  (length (filter P l) < length (filter Q l))%nat.
Proof.
  induction l as [|a l IH]; intros H Hy Py Qy; [destruct Hy|].
  assert (Hl : forall x, In x l -> P x = true -> Q x = true)
    by (intros x Hx; apply H; right; exact Hx).
  simpl. destruct Hy as [<- | Hy].
  - rewrite Py, Qy. simpl. pose proof (filter_length_mono P Q l Hl). lia.
  - specialize (IH Hl Hy Py Qy).
    destruct (P a) eqn:Ea.
    + rewrite (H a (or_introl eq_refl) Ea). simpl. lia.
    + destruct (Q a); simpl; lia.
Qed.

Lemma unrecorded_mono stop n n' :
  (forall x, lookup n x = true -> lookup n' x = true) ->
  (unrecorded stop n' <= unrecorded stop n)%nat.
Proof.
  intros H. apply filter_length_mono. intros x _.
  destruct (lookup n x) eqn:E; [rewrite (H x E)|]; auto.
Qed.

Lemma unrecorded_strict stop n n' y :
  (forall x, lookup n x = true -> lookup n' x = true) ->
  1 <= y < stop -> lookup n y = false -> lookup n' y = true ->
  (unrecorded stop n' < unrecorded stop n)%nat.
Proof.
  intros H Hy Ly Ly'. apply (filter_length_strict _ _ _ y).
  - intros x _. destruct (lookup n x) eqn:E; [rewrite (H x E)|]; auto.
  - apply in_zrange. exact Hy.
  - rewrite Ly'. reflexivity.
  - rewrite Ly. reflexivity.
Qed.

Lemma unrecorded_bound stop n : (unrecorded stop n <= Z.to_nat (stop - 1))%nat.
Proof.
  unfold unrecorded. rewrite <- (zrange_length 1 stop).
  induction (zrange 1 stop) as [|a l IH]; simpl; [lia|].
  destruct (negb (lookup n a)); simpl; lia.
Qed.

Lemma explore_ok num w :
  world_ok w -> 1 <= num <= MAXV ->
  exists found w1, explore_insert num w = Some (found, w1) /\ world_ok w1 /\
    wq w1 = wq w /\ log w1 = (num, found) :: log w /\
    (found = true <-> lookup (root w) num = true) /\
    (forall x, lookup (root w) x = true -> lookup (root w1) x = true) /\
    lookup (root w1) num = true.
Proof.
  intros (W & F & P) Hn.
  assert (Hpre : ins_pre [] (root w) num num (ts w)) by (repeat split; auto; lia).
  destruct (insert_ok (root w) [] num num (ts w) Hpre)
    as (found & n' & s' & E & W' & F' & _ & _ & P1 & _).
  pose proof (insert_mem (root w) [] num num (ts w) Hpre) as Hm.
  rewrite E in Hm. destruct Hm as (Hiff & Hmono & Hincl).
  unfold explore_insert. rewrite E.
  exists found, (mkworld n' s' (wq w) ((num, found) :: log w)).
  split; [reflexivity|]. unfold world_ok; simpl.
  split; [split; [exact W' | split; [rewrite F', F; lia | simpl; exact (P1 F)]]|].
  split; [reflexivity|]. split; [reflexivity|].
  split; [|split; [exact Hmono | apply Hincl; lia]].
  rewrite Hiff. split; [intros H; apply H; lia|].
  intros H x Hx. replace x with num by lia. exact H.
Qed.

Lemma collatz_r_S stop fuel num w :
  collatz_r stop (S fuel) num w =
  if stop <=? num then Some w else
  match explore_insert num w with
  | None => None
  | Some (true, w1) => Some w1
  | Some (false, w1) =>
      match collatz_r stop fuel (u64 (num * 2)) w1 with
      | None => None
      | Some w2 =>
          let num' := u64 (num - 1) in
          if num' mod 6 =? 3 then collatz_r stop fuel (num' / 3) w2
          else Some w2
      end
  end.
Proof. reflexivity. Qed.

Lemma log_in_app stop a b : log_in stop a -> log_in stop b -> log_in stop (a ++ b).
Proof. unfold log_in. intros. apply Forall_app. split; assumption. Qed.

Lemma collatz_r_ok stop (Hs : 1 <= stop <= 2 ^ 63) :
  forall fuel num w, world_ok w -> 1 <= num ->
  (unrecorded stop (root w) < fuel)%nat ->
  exists w', collatz_r stop fuel num w = Some w' /\ r_post stop num w w'.
Proof.
  unfold r_post. induction fuel as [|fuel IH]; intros num w Hw Hn Hf; [lia|].
  rewrite collatz_r_S. destruct (Z.leb_spec stop num) as [Hge|Hlt].
  { exists w. split; [reflexivity|]. split; [exact Hw|]. split; [reflexivity|].
    split; [exists []; split; [reflexivity | constructor]|].
    split; [auto | intros; lia]. }
  assert (Hr : 1 <= num <= MAXV) by (unfold MAXV, UINTMAX_MOD; lia).
  destruct (explore_ok num w Hw Hr) as (found & w1 & E & W1 & Q1 & L1 & Fd & M1 & N1).
  rewrite E. destruct found.
  { exists w1. split; [reflexivity|]. split; [exact W1|]. split; [exact Q1|].
    split; [exists [(num, true)]; split; [exact L1 | constructor; [simpl; lia | constructor]]|].
    split; [exact M1 | intros _; exact N1]. }
  assert (Hnf : lookup (root w) num = false)
    by (destruct (lookup (root w) num); [discriminate (proj2 Fd eq_refl) | reflexivity]).
  pose proof (unrecorded_strict stop (root w) (root w1) num M1 (conj Hn Hlt) Hnf N1) as D1.
  rewrite (u64_small (num * 2)) by (unfold UINTMAX_MOD; lia).
  destruct (IH (num * 2) w1 W1 ltac:(lia) ltac:(lia))
    as (w2 & E2 & W2 & Q2 & (new2 & L2 & I2) & M2 & _).
  rewrite E2. cbv zeta.
  pose proof (unrecorded_mono stop (root w1) (root w2) M2) as D2.
  rewrite (u64_small (num - 1)) by (unfold UINTMAX_MOD; lia).
  destruct (Z.eqb_spec ((num - 1) mod 6) 3) as [H3|H3].
  - assert (Hq : 1 <= (num - 1) / 3).
    { pose proof (Z.mod_le (num - 1) 6 ltac:(lia) ltac:(lia)).
      apply Z.div_le_lower_bound; lia. }
    destruct (IH ((num - 1) / 3) w2 W2 Hq ltac:(lia))
      as (w3 & E3 & W3 & Q3 & (new3 & L3 & I3) & M3 & _).
    exists w3. split; [exact E3|]. split; [exact W3|]. split; [congruence|].
    split; [|split; [intros x Hx; apply M3, M2, M1, Hx|]].
    + exists (new3 ++ new2 ++ [(num, false)]).
      rewrite L3, L2, L1, <- !app_assoc. split; [reflexivity|].
      apply log_in_app; [exact I3|]. apply log_in_app; [exact I2|].
      constructor; [simpl; lia | constructor].
    + intros _. apply M3, M2, N1.
  - exists w2. split; [reflexivity|]. split; [exact W2|]. split; [congruence|].
    split; [|split; [intros x Hx; apply M2, M1, Hx|]].
    + exists (new2 ++ [(num, false)]).
      rewrite L2, L1, <- app_assoc. split; [reflexivity|].
      apply log_in_app; [exact I2|]. constructor; [simpl; lia | constructor].
    + intros _. apply M2, N1.
Qed.

Lemma collatz_r_fuel_mono stop :
  forall fuel num w w', collatz_r stop fuel num w = Some w' ->
  forall fuel', (fuel <= fuel')%nat -> collatz_r stop fuel' num w = Some w'.
Proof.
  induction fuel as [|fuel IH]; intros num w w' E fuel' Hle; [discriminate|].
  destruct fuel' as [|fuel']; [lia|].
  rewrite collatz_r_S in E |- *.
  destruct (stop <=? num); [exact E|].
  destruct (explore_insert num w) as [[[|] w1]|]; try exact E.
  destruct (collatz_r stop fuel (u64 (num * 2)) w1) as [w2|] eqn:E2; [|discriminate].
  rewrite (IH _ _ _ E2 fuel') by lia. cbv zeta in E |- *.
  destruct (u64 (num - 1) mod 6 =? 3); [|exact E].
  apply (IH _ _ _ E fuel'). lia.
Qed.

Lemma main_stop_range k stop :
  main_stop k = Some stop -> 3 <= k <= 63 /\ stop = 2 ^ k.
Proof.
  unfold main_stop. destruct (Z.ltb_spec k 3), (Z.ltb_spec 63 k); simpl;
    try discriminate.
  intros E. injection E as <-. split; [lia|].
  rewrite Z.shiftl_1_l. apply u64_small. unfold UINTMAX_MOD. split.
  - apply Z.pow_nonneg. lia.
  - apply Z.pow_lt_mono_r; lia.
Qed.

Lemma collatz_init_r :
  collatz_init false =
  Some (mkworld (mknode 1 2 2 0 None None) (mktstate (Some []) 2 2 0) q_init []).
Proof. vm_compute. reflexivity. Qed.

Lemma init_world_ok : world_ok (mkworld (mknode 1 2 2 0 None None) (mktstate (Some []) 2 2 0) q_init []).
Proof. unfold world_ok. simpl. unfold MAXV, UINTMAX_MOD. repeat split; lia. Qed.

(** The recursive strategy, for every ceiling [main] accepts, runs to
    completion without an [assert] firing, with a recursion depth of at
    most [stop]: from that depth on the result no longer depends on it.
    The tree it leaves is well formed, starts at 1, [proven] points to
    the leaf holding 1, and every value it handed to [insert] lies in
    [1, stop). *)
Theorem collatz_r_completes (log2max stop : Z) :
  main_stop log2max = Some stop ->
  exists w, (forall fuel, (Z.to_nat stop <= fuel)%nat -> collatz false stop fuel = Some w) /\
    shape_ok (root w) /\ first (root w) = 1 /\ proven_ok (root w) (ts w) /\
    log_in stop (log w) /\ lookup (root w) 4 = true.
Proof.
  intros Hm. apply main_stop_range in Hm as [Hk ->].
  assert (Hs : 8 <= 2 ^ log2max <= 2 ^ 63).
  { split; [change 8 with (2 ^ 3)|]; apply Z.pow_le_mono_r; lia. }
  pose proof (unrecorded_bound (2 ^ log2max) (mknode 1 2 2 0 None None)).
  destruct (collatz_r_ok (2 ^ log2max) ltac:(lia) (Z.to_nat (2 ^ log2max)) 4 _
              init_world_ok ltac:(lia) ltac:(simpl; lia))
    as (w & E & (W & F & P) & _ & (new & L & I) & _ & N4).
  exists w. split; [|split; [|split; [|split; [|split]]]].
  - intros fuel Hf. unfold collatz. rewrite collatz_init_r.
    exact (collatz_r_fuel_mono _ _ _ _ _ E fuel Hf).
  - apply wf_shape. exact W.
  - exact F.
  - destruct (leftmost_leaf (root w) W) as (m & Em & Fm & Lm).
    exists (leftmost (root w)), m. repeat split; auto. congruence.
  - rewrite L, app_nil_r. exact I.
  - apply N4. lia.
Qed.

Lemma collatz_r_completes_witness :
  main_stop 3 = Some 8 /\
  exists w, (forall fuel, (Z.to_nat 8 <= fuel)%nat -> collatz false 8 fuel = Some w) /\
    shape_ok (root w) /\ first (root w) = 1 /\ proven_ok (root w) (ts w) /\
    log_in 8 (log w) /\ lookup (root w) 4 = true.
Proof. split; [reflexivity | exact (collatz_r_completes 3 8 eq_refl)]. Defined.

Lemma wq_size_pos : 0 < WORKQUEUE_SIZE.
Proof. reflexivity. Qed.

Lemma append_one q v :
  q_wf WORKQUEUE_SIZE q -> 0 < v -> Forall (fun x => 0 < x) (contents WORKQUEUE_SIZE q) ->
  q_wf WORKQUEUE_SIZE (snd (work_append WORKQUEUE_SIZE v q)) /\
  Forall (fun x => 0 < x) (contents WORKQUEUE_SIZE (snd (work_append WORKQUEUE_SIZE v q))) /\
  (length (contents WORKQUEUE_SIZE (snd (work_append WORKQUEUE_SIZE v q)))
     <= S (length (contents WORKQUEUE_SIZE q)))%nat.
Proof.
  intros W Hv Hc. pose proof W as (Hr & Hw & _).
  destruct (wq_depth_range WORKQUEUE_SIZE wq_size_pos q Hr Hw) as (Dr & _ & _).
  destruct (Z.eq_dec (q_depth WORKQUEUE_SIZE q) WORKQUEUE_SIZE) as [D|D].
  - rewrite (wq_append_full WORKQUEUE_SIZE wq_size_pos q v W D). simpl. auto.
  - destruct (wq_append_room WORKQUEUE_SIZE wq_size_pos q v W ltac:(lia) ltac:(lia))
      as (q' & E & C & W' & _).
    rewrite E. cbn [snd]. rewrite C. split; [exact W'|]. split.
    + apply Forall_app. split; [exact Hc | constructor; [exact Hv | constructor]].
    + rewrite length_app. simpl. lia.
Qed.

Lemma append_all_ok vs : forall q,
  q_wf WORKQUEUE_SIZE q -> Forall (fun x => 0 < x) vs ->
  Forall (fun x => 0 < x) (contents WORKQUEUE_SIZE q) ->
  q_wf WORKQUEUE_SIZE (append_all WORKQUEUE_SIZE vs q) /\
  Forall (fun x => 0 < x) (contents WORKQUEUE_SIZE (append_all WORKQUEUE_SIZE vs q)) /\
  (length (contents WORKQUEUE_SIZE (append_all WORKQUEUE_SIZE vs q))
     <= length (contents WORKQUEUE_SIZE q) + length vs)%nat.
Proof.
  induction vs as [|v vs IH]; intros q W Hv Hc.
  - simpl. split; [exact W | split; [exact Hc | lia]].
  - inversion Hv as [|? ? Hv1 Hvs]; subst.
    change (append_all WORKQUEUE_SIZE (v :: vs) q)
      with (append_all WORKQUEUE_SIZE vs (snd (work_append WORKQUEUE_SIZE v q))).
    destruct (append_one q v W Hv1 Hc) as (W1 & C1 & L1).
    destruct (IH _ W1 Hvs C1) as (W2 & C2 & L2).
    split; [exact W2|]. split; [exact C2|]. simpl. lia.
Qed.

Lemma successors_pos num :
  1 <= num < 2 ^ 63 -> Forall (fun x => 0 < x) (successors num) /\
  (length (successors num) <= 2)%nat.
Proof.
  intros H. rewrite (successors_eq num H).
  destruct (Z.eqb_spec ((num - 1) mod 6) 3) as [H3|H3].
  - assert (1 <= (num - 1) / 3).
    { pose proof (Z.mod_le (num - 1) 6 ltac:(lia) ltac:(lia)).
      apply Z.div_le_lower_bound; lia. }
    split; [repeat constructor; lia | simpl; lia].
  - split; [repeat constructor; lia | simpl; lia].
Qed.

(** The invariant of one iteration of [collatz_i] below [stop <= 2^63]. *)
Lemma collatz_i_step_ok stop w :
  1 <= stop <= 2 ^ 63 -> i_inv w ->
  exists b w', collatz_i_step stop w = Some (b, w') /\ i_inv w' /\
    (exists new, log w' = new ++ log w /\ log_in stop new) /\
    (forall x, lookup (root w) x = true -> lookup (root w') x = true) /\
    (b = true -> contents WORKQUEUE_SIZE (wq w') = [] /\
                 fst (work_fetch WORKQUEUE_SIZE (wq w)) = 0) /\
    (b = false -> (i_measure stop w' < i_measure stop w)%nat) /\
    (1 <= fst (work_fetch WORKQUEUE_SIZE (wq w)) < stop ->
     lookup (root w') (fst (work_fetch WORKQUEUE_SIZE (wq w))) = true).
Proof.
  intros Hs (Hw & Wq & Hc). unfold i_measure.
  pose proof Wq as (Hr & Hwr & _).
  destruct (wq_depth_range WORKQUEUE_SIZE wq_size_pos (wq w) Hr Hwr) as (Dr & _ & _).
  destruct (Z.eq_dec (q_depth WORKQUEUE_SIZE (wq w)) 0) as [D|D].
  { exists true, (set_wq w (wq w)).
    unfold collatz_i_step. rewrite (wq_fetch_empty WORKQUEUE_SIZE wq_size_pos (wq w) Wq D). simpl.
    assert (Hnil : contents WORKQUEUE_SIZE (wq w) = []).
    { apply length_zero_iff_nil. rewrite wq_contents_length, D. reflexivity. }
    split; [reflexivity|]. split; [split; [exact Hw | split; [exact Wq | exact Hc]]|].
    split; [exists []; split; [reflexivity | constructor]|].
    split; [auto|]. split; [intros _; split; [exact Hnil | reflexivity]|].
    split; [discriminate | intros; lia]. }
  destruct (wq_fetch_some WORKQUEUE_SIZE wq_size_pos (wq w) Wq ltac:(lia))
    as (q1 & F1 & C1 & W1 & _).
  set (num := queue (wq w) (qr (wq w))) in *.
  rewrite C1 in Hc. inversion Hc as [|? ? Hnum Hc1]; subst.
  assert (Hstep : collatz_i_step stop w =
    if num =? 0 then Some (true, set_wq w q1) else
    if stop <=? num then Some (false, set_wq w q1) else
    match explore_insert num (set_wq w q1) with
    | None => None
    | Some (true, w1) => Some (false, w1)
    | Some (false, w1) =>
        let q2 := snd (work_append WORKQUEUE_SIZE (u64 (num * 2)) (wq w1)) in
        let num' := u64 (num - 1) in
        let q3 := if num' mod 6 =? 3
                  then snd (work_append WORKQUEUE_SIZE (num' / 3) q2) else q2 in
        Some (false, set_wq w1 q3)
    end) by (unfold collatz_i_step; rewrite F1; reflexivity).
  replace (num =? 0) with false in Hstep by (symmetry; apply Z.eqb_neq; lia).
  rewrite C1. simpl length.
  destruct (Z.leb_spec stop num) as [Hge|Hlt].
  { exists false, (set_wq w q1). split; [exact Hstep|].
    split; [split; [exact Hw | split; [exact W1 | exact Hc1]]|].
    split; [exists []; split; [reflexivity | constructor]|].
    split; [auto|]. split; [discriminate|]. split; [intros _; simpl; lia|].
    rewrite F1. simpl. lia. }
  assert (Hr1 : 1 <= num <= MAXV) by (unfold MAXV, UINTMAX_MOD; lia).
  destruct (explore_ok num (set_wq w q1) Hw Hr1)
    as (found & w1 & E & Ww1 & Q1 & L1 & Fd & M1 & N1).
  simpl in Q1, L1, Fd, M1.
  destruct found.
  { exists false, w1. rewrite Hstep, E. split; [reflexivity|].
    unfold i_inv. rewrite Q1. split; [split; [exact Ww1 | split; [exact W1 | exact Hc1]]|].
    split; [exists [(num, true)]; split; [exact L1 | constructor; [simpl; lia | constructor]]|].
    split; [exact M1|]. split; [discriminate|].
    split; [intros _; pose proof (unrecorded_mono stop (root w) (root w1) M1); lia|].
    rewrite F1. intros _. exact N1. }
  assert (Hnf : lookup (root w) num = false)
    by (destruct (lookup (root w) num); [discriminate (proj2 Fd eq_refl) | reflexivity]).
  pose proof (unrecorded_strict stop (root w) (root w1) num M1 ltac:(lia) Hnf N1) as D1.
  rewrite (collatz_i_step_unfold stop w num q1 w1 F1 ltac:(lia) Hlt E).
  destruct (successors_pos num ltac:(lia)) as (Sp & Sl).
  rewrite Q1.
  destruct (append_all_ok (successors num) q1 W1 Sp Hc1) as (W2 & C2 & L2).
  exists false, (set_wq w1 (append_all WORKQUEUE_SIZE (successors num) q1)).
  split; [reflexivity|].
  split; [split; [exact Ww1 | split; [exact W2 | exact C2]]|].
  split; [exists [(num, false)]; split; [exact L1 | constructor; [simpl; lia | constructor]]|].
  split; [exact M1|]. split; [discriminate|].
  split; [intros _; cbn [root wq set_wq]; lia|].
  rewrite F1. intros _. exact N1.
Qed.

Lemma collatz_i_ok stop (Hs : 1 <= stop <= 2 ^ 63) :
  forall fuel w, i_inv w -> (i_measure stop w < fuel)%nat ->
  exists w', collatz_i stop fuel w = Some w' /\ i_inv w' /\
    contents WORKQUEUE_SIZE (wq w') = [] /\
    (exists new, log w' = new ++ log w /\ log_in stop new) /\
    (forall x, lookup (root w) x = true -> lookup (root w') x = true).
Proof.
  induction fuel as [|fuel IH]; intros w Hi Hf; [lia|].
  destruct (collatz_i_step_ok stop w Hs Hi)
    as (b & w1 & E & I1 & (new1 & L1 & N1) & M1 & Hb & Hm & _).
  simpl. rewrite E. destruct b.
  - exists w1. split; [reflexivity|]. split; [exact I1|]. split; [exact (proj1 (Hb eq_refl))|].
    split; [exists new1; auto | exact M1].
  - specialize (Hm eq_refl).
    destruct (IH w1 I1 ltac:(lia)) as (w2 & E2 & I2 & C2 & (new2 & L2 & N2) & M2).
    exists w2. split; [exact E2|]. split; [exact I2|]. split; [exact C2|].
    split; [|intros x Hx; apply M2, M1, Hx].
    exists (new2 ++ new1). rewrite L2, L1, app_assoc. split; [reflexivity|].
    apply log_in_app; assumption.
Qed.

Lemma collatz_i_fuel_mono stop :
  forall fuel w w', collatz_i stop fuel w = Some w' ->
  forall fuel', (fuel <= fuel')%nat -> collatz_i stop fuel' w = Some w'.
Proof.
  induction fuel as [|fuel IH]; intros w w' E fuel' Hle; [discriminate|].
  destruct fuel' as [|fuel']; [lia|].
  simpl in E |- *.
  destruct (collatz_i_step stop w) as [[[|] w1]|]; try exact E.
  apply (IH _ _ E). lia.
Qed.

Lemma collatz_i_S stop fuel w :
  collatz_i stop (S fuel) w =
  match collatz_i_step stop w with
  | None => None
  | Some (true, w') => Some w'
  | Some (false, w') => collatz_i stop fuel w'
  end.
Proof. reflexivity. Qed.

Lemma collatz_init_i :
  collatz_init true =
  Some (set_wq (mkworld (mknode 1 2 2 0 None None) (mktstate (Some []) 2 2 0) q_init [])
               (snd (work_append WORKQUEUE_SIZE 4 q_init))).
Proof. reflexivity. Qed.

Lemma q_init_contents : contents WORKQUEUE_SIZE q_init = [].
Proof. reflexivity. Qed.

Lemma q_init_first : fst (work_fetch WORKQUEUE_SIZE (snd (work_append WORKQUEUE_SIZE 4 q_init))) = 4.
Proof. reflexivity. Qed.

(** The iterative strategy, for every ceiling [main] accepts, runs to
    completion without an [assert] firing, in at most [3 * stop] loop
    iterations: from that bound on the result no longer depends on it.
    It stops with an empty queue; the tree it leaves is well formed,
    starts at 1, [proven] points to the leaf holding 1, every value it
    handed to [insert] lies in [1, stop), and the seed 4 is recorded. *)
Theorem collatz_i_completes (log2max stop : Z) :
  main_stop log2max = Some stop ->
  exists w, (forall fuel, (3 * Z.to_nat stop <= fuel)%nat -> collatz true stop fuel = Some w) /\
    shape_ok (root w) /\ first (root w) = 1 /\ proven_ok (root w) (ts w) /\
    log_in stop (log w) /\ contents WORKQUEUE_SIZE (wq w) = [] /\
    lookup (root w) 4 = true.
Proof.
  intros Hm. apply main_stop_range in Hm as [Hk ->].
  assert (Hs : 8 <= 2 ^ log2max <= 2 ^ 63).
  { split; [change 8 with (2 ^ 3)|]; apply Z.pow_le_mono_r; lia. }
  set (stop := 2 ^ log2max) in *.
  set (w0 := set_wq (mkworld (mknode 1 2 2 0 None None) (mktstate (Some []) 2 2 0) q_init [])
                    (snd (work_append WORKQUEUE_SIZE 4 q_init))).
  destruct (append_one q_init 4 (q_init_wf WORKQUEUE_SIZE wq_size_pos) ltac:(lia)
              ltac:(rewrite q_init_contents; constructor)) as (W0 & C0 & _).
  assert (I0 : i_inv w0) by (split; [exact init_world_ok | split; [exact W0 | exact C0]]).
  pose proof (unrecorded_bound stop (mknode 1 2 2 0 None None)) as B0.
  assert (M0 : (i_measure stop w0 <= 3 * Z.to_nat stop - 2)%nat).
  { unfold i_measure. cbn [root wq w0 set_wq].
    change (length (contents WORKQUEUE_SIZE (snd (work_append WORKQUEUE_SIZE 4 q_init))))
      with 1%nat. lia. }
  destruct (collatz_i_step_ok stop w0 ltac:(lia) I0)
    as (b & w1 & E1 & I1 & (new1 & L1 & N1) & _ & Hb & Hm1 & F1).
  assert (Hf : fst (work_fetch WORKQUEUE_SIZE (wq w0)) = 4) by exact q_init_first.
  rewrite Hf in F1, Hb.
  destruct b; [destruct (Hb eq_refl) as [_ H4]; discriminate|].
  specialize (Hm1 eq_refl). specialize (F1 ltac:(lia)).
  destruct (collatz_i_ok stop ltac:(lia) (3 * Z.to_nat stop - 1) w1 I1 ltac:(lia))
    as (w & E & ((W & F & P) & _ & _) & Cw & (new & L & N) & Mw).
  exists w. split; [|split; [|split; [|split; [|split; [|split]]]]].
  - intros fuel Hfuel. destruct fuel as [|fuel]; [lia|].
    unfold collatz. rewrite collatz_init_i. fold w0.
    rewrite collatz_i_S, E1.
    exact (collatz_i_fuel_mono _ _ _ _ E fuel ltac:(lia)).
  - apply wf_shape. exact W.
  - exact F.
  - destruct (leftmost_leaf (root w) W) as (m & Em & Fm & Lm).
    exists (leftmost (root w)), m. repeat split; auto. congruence.
  - rewrite L, L1, app_nil_r. apply log_in_app; assumption.
  - exact Cw.
  - apply Mw. exact F1.
Qed.

Lemma collatz_i_completes_witness :
  main_stop 3 = Some 8 /\
  exists w, (forall fuel, (3 * Z.to_nat 8 <= fuel)%nat -> collatz true 8 fuel = Some w) /\
    shape_ok (root w) /\ first (root w) = 1 /\ proven_ok (root w) (ts w) /\
    log_in 8 (log w) /\ contents WORKQUEUE_SIZE (wq w) = [] /\
    lookup (root w) 4 = true.
Proof. split; [reflexivity | exact (collatz_i_completes 3 8 eq_refl)]. Defined.

(** ** The recursion statistics *)

Lemma explore_log num w found w1 :
  explore_insert num w = Some (found, w1) -> log w1 = (num, found) :: log w.
Proof.
  unfold explore_insert. destruct (insert [] (root w) num num (ts w)) as [[[f r] t]|];
    [|discriminate].
  intros E. injection E as <- <-. reflexivity.
Qed.

Lemma u64_add_idemp a b : u64 (u64 a + b) = u64 (a + b).
Proof. unfold u64. apply Zplus_mod_idemp_l. Qed.

(** [collatz_r]'s static [depth] is decremented only on the path that
    falls through to the end of the function, never on its two early
    returns.  Every call therefore returns with [depth] raised, modulo
    2^64, by one plus the number of values it newly recorded whose
    [--num % 6 == 3] test made it recurse twice: the number of calls in
    its call tree that returned early.  The tree and log are those of
    [collatz_r]. *)
Theorem collatz_r_depth_leak stop :
  forall fuel num w st w' st',
  collatz_rd stop fuel num w st = Some (w', st') ->
  collatz_r stop fuel num w = Some w' /\
  exists new, log w' = new ++ log w /\
    rdepth st' = u64 (rdepth st + 1 + Z.of_nat (length (filter two_calls new))).
Proof.
  induction fuel as [|fuel IH]; intros num w st w' st' E; [discriminate|].
  rewrite collatz_r_S. simpl in E.
  set (st1 := mkrstat (u64 (rdepth st + 1))
                (if maxrecurse st <? u64 (rdepth st + 1) then u32 (u64 (rdepth st + 1))
                 else maxrecurse st)) in E.
  assert (S1 : rdepth st1 = u64 (rdepth st + 1)) by reflexivity.
  destruct (stop <=? num); cbn beta iota zeta in E |- *.
  { injection E as <- <-. split; [reflexivity|]. exists []. split; [reflexivity|].
    rewrite S1. simpl. f_equal. lia. }
  destruct (explore_insert num w) as [[[|] w1]|] eqn:Ex; cbn beta iota zeta in E |- *;
    [| |discriminate].
  { injection E as <- <-. split; [reflexivity|]. exists [(num, true)].
    split; [exact (explore_log _ _ _ _ Ex)|].
    rewrite S1. simpl. f_equal. lia. }
  pose proof (explore_log _ _ _ _ Ex) as L1.
  destruct (collatz_rd stop fuel (u64 (num * 2)) w1 st1) as [[w2 st2]|] eqn:E2;
    [|discriminate].
  destruct (IH _ _ _ _ _ E2) as (R2 & new2 & L2 & D2).
  rewrite R2. cbv zeta in E |- *.
  rewrite S1, <- Z.add_assoc, u64_add_idemp in D2.
  destruct (u64 (num - 1) mod 6 =? 3) eqn:M.
  - destruct (collatz_rd stop fuel (u64 (num - 1) / 3) w2 st2) as [[w3 st3]|] eqn:E3;
      [|discriminate].
    destruct (IH _ _ _ _ _ E3) as (R3 & new3 & L3 & D3).
    rewrite <- Z.add_assoc in D3.
    injection E as <- <-. rewrite R3. split; [reflexivity|].
    exists (new3 ++ new2 ++ [(num, false)]).
    split; [rewrite L3, L2, L1, <- !app_assoc; reflexivity|].
    rewrite !filter_app, !length_app. cbn [rdepth].
    unfold two_calls at 3. cbn [filter fst snd negb andb]. rewrite M. cbn [length].
    rewrite D3, D2, u64_add_idemp.
    unfold u64. rewrite Zminus_mod_idemp_l. f_equal. lia.
  - injection E as <- <-. split; [reflexivity|].
    exists (new2 ++ [(num, false)]).
    split; [rewrite L2, L1, <- app_assoc; reflexivity|].
    rewrite !filter_app, !length_app. cbn [rdepth].
    unfold two_calls at 2. cbn [filter fst snd negb andb]. rewrite M. cbn [length].
    rewrite D2. unfold u64. rewrite Zminus_mod_idemp_l. f_equal. lia.
Qed.

Lemma collatz_r_depth_leak_witness :
  exists w' st',
    collatz_rd 1024 1024 4 (mkworld (mknode 1 2 2 0 None None) (mktstate (Some []) 2 2 0) q_init [])
      (mkrstat 0 0) = Some (w', st') /\
    collatz_r 1024 1024 4 (mkworld (mknode 1 2 2 0 None None) (mktstate (Some []) 2 2 0) q_init [])
      = Some w' /\
    exists new, log w' = new ++ [] /\
      rdepth st' = u64 (0 + 1 + Z.of_nat (length (filter two_calls new))).
Proof.
  destruct (collatz_rd 1024 1024 4
              (mkworld (mknode 1 2 2 0 None None) (mktstate (Some []) 2 2 0) q_init [])
              (mkrstat 0 0)) as [[w' st']|] eqn:E; [|vm_compute in E; discriminate].
  exists w', st'. split; [reflexivity|].
  exact (collatz_r_depth_leak 1024 1024 4 _ (mkrstat 0 0) w' st' E).
Defined.
